(** * spark_manager.py: release contributor list

    A shallow embedding of [src/spark_manager.py].  The script diffs the
    commit lists of two release tags, classifies the new commits by their
    title, asks the issue tracker about every issue reference of the
    remaining commits, groups issue types and components by author and
    writes one report line per author.

    Conventions of the embedding:
    - a Python [str] is a [string] of 8-bit characters; [lower] and [upper]
      act on the ASCII letters;
    - a Python [set] of strings is a [gset string]; the order in which a
      set is iterated is not fixed by the language, so every place where
      the script iterates a set takes the order from a [SetOrder];
    - a Python [dict] is an association list in insertion order;
    - the helpers imported from [releaseutils] are fields of [ReleaseUtils];
    - a raised exception is an [inl] (tracker) or a [None] (report writer). *)

From Stdlib Require Import Ascii String.
From stdpp Require Import base option list sorting gmap strings.

Local Open Scope string_scope.
Local Open Scope list_scope.

#[local] Set Warnings "-clear-no-such-hyp".

(** ** Python string primitives *)

Module Py.

Definition is_upper_letter (c : ascii) : bool :=
  let n := nat_of_ascii c in (65 <=? n)%nat && (n <=? 90)%nat.

Definition is_lower_letter (c : ascii) : bool :=
  let n := nat_of_ascii c in (97 <=? n)%nat && (n <=? 122)%nat.

Definition is_digit (c : ascii) : bool :=
  let n := nat_of_ascii c in (48 <=? n)%nat && (n <=? 57)%nat.

Definition lower_char (c : ascii) : ascii :=
  if is_upper_letter c then ascii_of_nat (nat_of_ascii c + 32) else c.

Definition upper_char (c : ascii) : ascii :=
  if is_lower_letter c then ascii_of_nat (nat_of_ascii c - 32) else c.

Fixpoint map_chars (f : ascii → ascii) (s : string) : string :=
  match s with
  | EmptyString => EmptyString
  | String c r => String (f c) (map_chars f r)
  end.

(** [s.lower()] and [s.upper()] *)
Definition lower : string → string := map_chars lower_char.
Definition upper : string → string := map_chars upper_char.

(** [sub in s] *)
Fixpoint contains (sub s : string) : bool :=
  String.prefix sub s ||
  match s with
  | EmptyString => false
  | String _ r => contains sub r
  end.

(** [any(phrase in s for phrase in phrases)] *)
Definition any_in (phrases : list string) (s : string) : bool :=
  existsb (λ phrase, contains phrase s) phrases.

(** [sep.join(items)] *)
Fixpoint join (sep : string) (items : list string) : string :=
  match items with
  | [] => ""
  | [x] => x
  | x :: rest => x +:+ sep +:+ join sep rest
  end.

Fixpoint drop_chars (n : nat) (s : string) : string :=
  match n, s with
  | O, _ => s
  | S k, String _ r => drop_chars k r
  | S _, EmptyString => EmptyString
  end.

Fixpoint take_digits (s : string) : string :=
  match s with
  | String c r => if is_digit c then String c (take_digits r) else ""
  | EmptyString => ""
  end.

(** The regular expression [SPARK-[0-9]+] anchored at the start of [s]:
    the literal prefix and the longest non-empty run of digits. *)
Definition match_issue_at (s : string) : option string :=
  if String.prefix "SPARK-" s then
    match take_digits (drop_chars 6 s) with
    | EmptyString => None
    | ds => Some ("SPARK-" +:+ ds)
    end
  else None.

(** [re.search("SPARK-[0-9]+", s)], as a truth value *)
Fixpoint search_issue (s : string) : bool :=
  match s with
  | EmptyString => false
  | String _ r => bool_decide (is_Some (match_issue_at s)) || search_issue r
  end.

(** [re.findall("SPARK-[0-9]+", s)]: the matches from left to right, the
    scan resuming after the end of each match ([skip] counts the characters
    of the current match that are still to be passed). *)
Fixpoint findall_from (skip : nat) (s : string) : list string :=
  match s with
  | EmptyString => []
  | String _ r =>
      match skip with
      | S k => findall_from k r
      | O =>
          match match_issue_at s with
          | Some m => m :: findall_from (String.length m - 1) r
          | None => findall_from 0 r
          end
      end
  end.

Definition findall_issues : string → list string := findall_from 0.

(** Truth value of an optional string: [None] and [""] are false. *)
Definition truthy (o : option string) : bool :=
  match o with
  | Some (String _ _) => true
  | _ => false
  end.

End Py.

(** ** Commits *)

(** [releaseutils.Commit], read through its getters.  The pull-request
    number is optional. *)
Record Commit := mkCommit {
  get_hash : string;
  get_title : string;
  get_author : string;
  get_pr_number : option string;
}.

Global Instance Commit_eq_dec : EqDecision Commit.
Proof. solve_decision. Defined.

(** ** Commits of the new release that are not in the previous one *)

Definition previous_release_hashes (previous_release_commits : list Commit)
  : gset string :=
  list_to_set (get_hash <$> previous_release_commits).

(** [{c.get_pr_number() for c in previous if c.get_pr_number()}] *)
Definition previous_release_prs (previous_release_commits : list Commit)
  : gset (option string) :=
  list_to_set
    (get_pr_number <$>
       filter (λ c, Py.truthy (get_pr_number c) = true) previous_release_commits).

Definition is_new_commit (previous_release_commits : list Commit) (commit : Commit)
  : bool :=
  bool_decide (get_hash commit ∉ previous_release_hashes previous_release_commits)
  && (if Py.truthy (get_pr_number commit)
      then bool_decide
             (get_pr_number commit ∉ previous_release_prs previous_release_commits)
      else true).

Definition new_commits (previous_release_commits release_commits : list Commit)
  : list Commit :=
  filter (λ c, is_new_commit previous_release_commits c = true) release_commits.

(** The specification's "set of non-null previous-release PR numbers". *)
Definition non_null_prs (previous : list Commit) : gset (option string) :=
  list_to_set (filter (λ n, n ≠ None) (get_pr_number <$> previous)).

(** ** Classification by title *)

Definition is_release (commit_title : string) : bool :=
  Py.any_in ["[release]"; "preparing spark release";
             "preparing development version"; "changes.txt"]
            (Py.lower commit_title).

Definition is_maintenance (commit_title : string) : bool :=
  Py.any_in ["maintenance"; "manually close"] (Py.lower commit_title).

Definition has_no_jira (commit_title : string) : bool :=
  negb (Py.search_issue (Py.upper commit_title)).

Definition is_revert (commit_title : string) : bool :=
  Py.contains "revert" (Py.lower commit_title).

Definition is_docs (commit_title : string) : bool :=
  Py.contains "docs" (Py.lower commit_title)
  || Py.contains "programming guide" (Py.lower commit_title).

(** The five lists the classification loop appends to. *)
Record Buckets := mkBuckets {
  releases : list Commit;
  maintenance : list Commit;
  reverts : list Commit;
  nojiras : list Commit;
  filtered_commits : list Commit;
}.

Definition no_buckets : Buckets := mkBuckets [] [] [] [] [].

(** [title = commit.get_title() or ""] *)
Definition title_or_empty (commit : Commit) : string :=
  if Py.truthy (Some (get_title commit)) then get_title commit else "".

(** One iteration of the classification loop. *)
Definition classify_step (b : Buckets) (commit : Commit) : Buckets :=
  let title := title_or_empty commit in
  if is_release title then
    mkBuckets (releases b ++ [commit]) (maintenance b) (reverts b) (nojiras b)
              (filtered_commits b)
  else if is_maintenance title then
    mkBuckets (releases b) (maintenance b ++ [commit]) (reverts b) (nojiras b)
              (filtered_commits b)
  else if is_revert title then
    mkBuckets (releases b) (maintenance b) (reverts b ++ [commit]) (nojiras b)
              (filtered_commits b)
  else if is_docs title then
    mkBuckets (releases b) (maintenance b) (reverts b) (nojiras b)
              (filtered_commits b ++ [commit])
  else if has_no_jira title then
    mkBuckets (releases b) (maintenance b) (reverts b) (nojiras b ++ [commit])
              (filtered_commits b)
  else
    mkBuckets (releases b) (maintenance b) (reverts b) (nojiras b)
              (filtered_commits b ++ [commit]).

Definition classify_commits (commits : list Commit) : Buckets :=
  foldl classify_step no_buckets commits.

(** The classifier as the specification words it: an ordered table of
    rules, the first rule whose predicate holds decides the category. *)
Inductive Category :=
  | ReleaseProcess | Maintenance | Revert | Documentation | NoIssue | Normal.

Global Instance Category_eq_dec : EqDecision Category.
Proof. solve_decision. Defined.

Definition classifier_rules : list ((string → bool) * Category) :=
  [ (is_release, ReleaseProcess);
    (is_maintenance, Maintenance);
    (is_revert, Revert);
    (is_docs, Documentation);
    (has_no_jira, NoIssue) ].

Fixpoint first_match (rules : list ((string → bool) * Category)) (title : string)
  : Category :=
  match rules with
  | [] => Normal
  | (p, cat) :: rest => if p title then cat else first_match rest title
  end.

Definition category_of_title : string → Category := first_match classifier_rules.

(** The category of a commit is the category of its title. *)
Definition category_of (commit : Commit) : Category :=
  category_of_title (title_or_empty commit).

(** The five lists as the rule table determines them; documentation and
    normal commits share the processing queue. *)
Definition buckets_by_category (commits : list Commit) : Buckets :=
  mkBuckets
    (filter (λ c, category_of c = ReleaseProcess) commits)
    (filter (λ c, category_of c = Maintenance) commits)
    (filter (λ c, category_of c = Revert) commits)
    (filter (λ c, category_of c = NoIssue) commits)
    (filter (λ c, category_of c = Documentation ∨ category_of c = Normal) commits).

(** ** Dictionaries and sets *)

(** A [dict] with string keys, in insertion order. *)
Definition dict (V : Type) : Type := list (string * V).

Fixpoint dict_get {V} (k : string) (d : dict V) : option V :=
  match d with
  | [] => None
  | (k', v) :: rest => if decide (k' = k) then Some v else dict_get k rest
  end.

(** [d[k] = v]: an existing key keeps its place, a new key goes last. *)
Fixpoint dict_set {V} (k : string) (v : V) (d : dict V) : dict V :=
  match d with
  | [] => [(k, v)]
  | (k', v') :: rest =>
      if decide (k' = k) then (k, v) :: rest else (k', v') :: dict_set k v rest
  end.

Definition dict_keys {V} (d : dict V) : list string := fst <$> d.

(** The order in which a set of strings is iterated: some enumeration of
    its elements, each exactly once. *)
Class SetOrder := {
  set_iter : gset string → list string;
  set_iter_perm : ∀ s, set_iter s ≡ₚ elements s;
}.

(** ** The collaborators imported from [releaseutils] *)

(** What the tracker returns for an issue: [fields.issuetype.name] and the
    [name] of every entry of [fields.components]. *)
Record JiraIssue := mkJiraIssue {
  issuetype_name : string;
  component_names : list string;
}.

(** The two translation helpers return the canonical label together with
    the warnings they append to the [warnings] list they are handed.
    [jira_issue] is [jira_client.issue]; [inl e] stands for an exception
    [e] raised by the query. *)
Class ReleaseUtils := {
  get_commits : string → list Commit;
  is_valid_author : string → bool;
  get_date : string → string;
  find_components : string → string → list string;
  translate_issue_type : string → string → string * list string;
  translate_component : string → string → string * list string;
  CORE_COMPONENT : string;
  jira_issue : string → string + JiraIssue;
  iteration_order :: SetOrder;
}.

(** Modelled from the spec: [releaseutils.nice_join] is not part of the
    sources; the specification gives its joining rule: no separator for a
    single item, [" and "] for two, comma-separated with ["and"] before the
    last for three or more (the "A, B, and C" style).  Nothing is said
    about an empty collection, which is rendered as the empty string. *)
Definition nice_join (items : list string) : string :=
  match items with
  | [] => ""
  | [x] => x
  | [x; y] => x +:+ " and " +:+ y
  | _ =>
      Py.join ", " (take (length items - 1) items)
      +:+ ", and " +:+ default "" (last items)
  end.

(** ** The state of the compilation loop *)

(** [tracker_calls] records the keys handed to [jira_client.issue], in
    order; [stdout] the lines printed inside the loop. *)
Record State := mkState {
  invalid_authors : dict (gset string);
  author_info : dict (dict (gset string));
  warnings : list string;
  stdout : list string;
  tracker_calls : list string;
}.

Definition initial_state : State := mkState [] [] [] [] [].

Definition set_invalid_authors (inv : dict (gset string)) (st : State) : State :=
  mkState inv (author_info st) (warnings st) (stdout st) (tracker_calls st).

Definition set_author_info (info : dict (dict (gset string))) (st : State) : State :=
  mkState (invalid_authors st) info (warnings st) (stdout st) (tracker_calls st).

Definition add_warnings (ws : list string) (st : State) : State :=
  mkState (invalid_authors st) (author_info st) (warnings st ++ ws) (stdout st)
          (tracker_calls st).

Definition print (line : string) (st : State) : State :=
  mkState (invalid_authors st) (author_info st) (warnings st) (stdout st ++ [line])
          (tracker_calls st).

Definition record_call (issue : string) (st : State) : State :=
  mkState (invalid_authors st) (author_info st) (warnings st) (stdout st)
          (tracker_calls st ++ [issue]).

Section Pipeline.
Context `{RU : ReleaseUtils}.

(** *** Author aggregation *)

(** The closure [populate] with its captured [author] made explicit. *)
Definition populate (author issue_type : string) (components : gset string)
    (info : dict (dict (gset string))) : dict (dict (gset string)) :=
  let components :=
    if decide (components = ∅) then {[CORE_COMPONENT]} else components in
  let info :=
    match dict_get author info with
    | None => dict_set author [] info
    | Some _ => info
    end in
  let record := default [] (dict_get author info) in
  let record :=
    match dict_get issue_type record with
    | None => dict_set issue_type ∅ record
    | Some _ => record
    end in
  let comps := default ∅ (dict_get issue_type record) in
  dict_set author (dict_set issue_type (comps ∪ components) record) info.

(** The components [populate] merges: the given ones, or the core
    component when none were given. *)
Definition effective_components (components : gset string) : gset string :=
  if decide (components = ∅) then {[CORE_COMPONENT]} else components.

(** The component set filed under an author and an issue type. *)
Definition components_of (author issue_type : string)
    (info : dict (dict (gset string))) : gset string :=
  default ∅ (dict_get issue_type (default [] (dict_get author info))).

(** *** Author identity *)

(** [invalid_authors] after the commit's issues were added to the set of
    its raw author. *)
Definition note_invalid_author (author : string) (issues : list string)
    (inv : dict (gset string)) : dict (gset string) :=
  let inv :=
    match dict_get author inv with
    | None => dict_set author ∅ inv
    | Some _ => inv
    end in
  foldl (λ inv issue,
           dict_set author (default ∅ (dict_get author inv) ∪ {[issue]}) inv)
        inv issues.

(** The identity a commit is aggregated under, and the updated state. *)
Definition resolve_author (st : State) (author : string) (issues : list string)
  : string * State :=
  if is_valid_author author then (author, st)
  else
    let inv := note_invalid_author author issues (invalid_authors st) in
    (author +:+ "/" +:+ Py.join "/" (set_iter (default ∅ (dict_get author inv))),
     set_invalid_authors inv st).

(** *** Issue enrichment *)

Definition translate_components (_hash : string) (names : list string)
  : list string * list string :=
  foldl (λ '(acc, ws) name,
           let '(c, w) := translate_component name _hash in (acc ++ [c], ws ++ w))
        ([], []) names.

(** The body of the [try] block for one issue reference. *)
Definition try_enrich (_hash author : string) (commit_components : list string)
    (st : State) (issue : string) : string + State :=
  match jira_issue issue with
  | inl e => inl e
  | inr found =>
      let '(jira_type, w1) := translate_issue_type (issuetype_name found) issue in
      let st := add_warnings w1 st in
      let '(jira_components, w2) :=
        translate_components _hash (component_names found) in
      let st := add_warnings w2 st in
      let all_components : gset string :=
        list_to_set (jira_components ++ commit_components) in
      inr (set_author_info (populate author jira_type all_components (author_info st)) st)
  end.

(** [try: ... except Exception as e: print(...)] *)
Definition enrich_issue (_hash author : string) (commit_components : list string)
    (st : State) (issue : string) : State :=
  let st := record_call issue st in
  match try_enrich _hash author commit_components st issue with
  | inr st' => st'
  | inl e => print ("Unexpected error: " +:+ e) st
  end.

Definition commit_issues (commit : Commit) : list string :=
  Py.findall_issues (Py.upper (get_title commit)).

(** One iteration of the loop over [filtered_commits]. *)
Definition process_commit (st : State) (commit : Commit) : State :=
  let _hash := get_hash commit in
  let title := get_title commit in
  let issues := commit_issues commit in
  let date := get_date _hash in
  let '(author, st) := resolve_author st (get_author commit) issues in
  let commit_components := find_components title _hash in
  let st := foldl (enrich_issue _hash author commit_components) st issues in
  let st :=
    if is_docs title && bool_decide (issues = [])
    then set_author_info
           (populate author "documentation" (list_to_set commit_components)
                     (author_info st)) st
    else st in
  print ("  Processed commit " +:+ _hash +:+ " authored by " +:+ author
         +:+ " on " +:+ date) st.

Definition compile_contributors (commits : list Commit) : State :=
  foldl process_commit initial_state commits.

(** *** Report *)

(** [s[0].capitalize() + s[1:]]; indexing the empty string raises. *)
Definition capitalize_first (s : string) : option string :=
  match s with
  | EmptyString => None
  | String c r => Some (String (Py.upper_char c) r)
  end.

(** The contribution clause of one author, before capitalisation. *)
Definition contribution_of (record : dict (gset string)) : option string :=
  let components : gset string := ⋃ (snd <$> record) in
  let issue_types : gset string := list_to_set (fst <$> record) in
  if decide (size components = 1) then
    c ← head (set_iter components);
    Some (nice_join (set_iter issue_types) +:+ " in " +:+ c)
  else
    Some (Py.join "; "
            ((λ '(issue_type, comps), issue_type +:+ " in " +:+ nice_join (set_iter comps))
               <$> record)).

Definition report_line (info : dict (dict (gset string))) (author : string)
  : option string :=
  record ← dict_get author info;
  contribution ← contribution_of record;
  contribution ← capitalize_first contribution;
  Some (author +:+ " -- " +:+ contribution).

(** [sorted(author_info.keys())] *)
Definition sorted_authors (info : dict (dict (gset string))) : list string :=
  merge_sort String.le (dict_keys info).

(** The lines written to the contributors file, or [None] when writing a
    line raises. *)
Definition write_contributors (info : dict (dict (gset string)))
  : option (list string) :=
  mapM (report_line info) (sorted_authors info).

(** *** The whole run *)

Record Answers := mkAnswers {
  show_all_commits : bool;
  looks_correct : bool;
  show_ignored_commits : bool;
  ok_to_proceed : bool;
}.

Inductive Outcome :=
  | Exit (message : string)
  | Raised
  | Written (lines warnings : list string).

Definition final_warnings (st : State) : list string :=
  match invalid_authors st with
  | [] => warnings st
  | inv =>
      warnings st ++ ["Found the following invalid authors:"]
      ++ ((λ a, String "009" a) <$> dict_keys inv)
      ++ ["Please run './translate-contributors.py' to translate them."]
  end.

(** The script from the point where both tags are known to exist; the
    answers to the prompts are an input. *)
Definition main (RELEASE_TAG PREVIOUS_RELEASE_TAG : string) (answers : Answers)
  : Outcome :=
  let release_commits := get_commits RELEASE_TAG in
  let previous_release_commits := get_commits PREVIOUS_RELEASE_TAG in
  let new := new_commits previous_release_commits release_commits in
  match new with
  | [] =>
      Exit ("There are no new commits between " +:+ PREVIOUS_RELEASE_TAG
            +:+ " and " +:+ RELEASE_TAG +:+ "!")
  | _ =>
      if negb (looks_correct answers) then Exit "Ok, exiting"
      else
        let b := classify_commits new in
        if negb (ok_to_proceed answers) then Exit "Ok, exiting."
        else
          let st := foldl process_commit initial_state (filtered_commits b) in
          match write_contributors (author_info st) with
          | None => Raised
          | Some lines => Written lines (final_warnings st)
          end
  end.

(** *** Notions used to state the properties *)

(** What one issue reference does to [author_info]. *)
Definition issue_contribution (_hash author : string)
    (commit_components : list string) (info : dict (dict (gset string)))
    (issue : string) : dict (dict (gset string)) :=
  match jira_issue issue with
  | inl _ => info
  | inr found =>
      populate author
        (translate_issue_type (issuetype_name found) issue).1
        (list_to_set
           ((translate_components _hash (component_names found)).1
            ++ commit_components))
        info
  end.

(** The identity a commit is aggregated under in a given state. *)
Definition identity_of (st : State) (commit : Commit) : string :=
  (resolve_author st (get_author commit) (commit_issues commit)).1.

(** Every author has at least one issue type, and every issue type a
    non-empty component set. *)
Definition well_formed_info (info : dict (dict (gset string))) : Prop :=
  ∀ author record, (author, record) ∈ info →
    record ≠ [] ∧ ∀ issue_type comps, (issue_type, comps) ∈ record → comps ≠ ∅.

(** All issue references of the commits of one raw author. *)
Definition issues_seen (author : string) (commits : list Commit) : gset string :=
  ⋃ ((λ c, list_to_set (commit_issues c))
       <$> filter (λ c, get_author c = author) commits).

End Pipeline.

(** ** Concrete collaborators, for running the model *)

Module Demo.

(** Two iteration orders: by ascending and by descending string order. *)
Definition ascending_order : SetOrder :=
  {| set_iter s := merge_sort String.le (elements s);
     set_iter_perm s := merge_sort_Permutation String.le (elements s) |}.

Definition descending_order : SetOrder :=
  {| set_iter s := reverse (merge_sort String.le (elements s));
     set_iter_perm s :=
       transitivity (reverse_Permutation (merge_sort String.le (elements s)))
                    (merge_sort_Permutation String.le (elements s)) |}.

(** A tracker that knows two issues and fails on every other key. *)
Definition tracker (issue : string) : string + JiraIssue :=
  if decide (issue = "SPARK-10") then inr (mkJiraIssue "Bug" ["Core"])
  else if decide (issue = "SPARK-11") then inr (mkJiraIssue "Improvement" ["SQL"; "Core"])
  else inl "issue not found".

Definition h1 : Commit := mkCommit "h1" "Initial import" "A <a@x.com>" None.
Definition fix_x : Commit := mkCommit "h2" "[SPARK-10] Fix X" "A <a@x.com>" None.
Definition fix_y : Commit :=
  mkCommit "h3" "[SPARK-11][spark-10] Fix Y" "bob" (Some "12").
Definition picked_y : Commit :=
  mkCommit "h9" "[SPARK-11][spark-10] Fix Y" "bob" (Some "12").
Definition lost_issue : Commit := mkCommit "h4" "[SPARK-99] Fix Z" "C <c@x.com>" None.
Definition mixed_issues : Commit :=
  mkCommit "h5" "[SPARK-10][SPARK-99][SPARK-11] Fix W" "C <c@x.com>" None.
Definition guide : Commit := mkCommit "h6" "Update docs" "bob" None.
Definition revert_docs : Commit := mkCommit "h7" "Revert docs change" "bob" None.
Definition release_revert : Commit :=
  mkCommit "h8" "[RELEASE] Revert version bump" "A <a@x.com>" None.

(** The history of four tags. *)
Definition commits_of_tag (tag : string) : list Commit :=
  if decide (tag = "v1.1.0") then [h1]
  else if decide (tag = "v1.2.0-rc0") then [h1; fix_x]
  else if decide (tag = "v1.2.0-rc1") then [h1; lost_issue]
  else if decide (tag = "v1.2.0-rc2") then [h1; fix_x; fix_y; mixed_issues; guide]
  else [].

(** Authors are valid when they contain a space; no component is ever
    inferred from a title; labels are passed through unchanged. *)
Definition utils (o : SetOrder) : ReleaseUtils :=
  {| get_commits := commits_of_tag;
     is_valid_author a := Py.contains " " a;
     get_date _ := "2014-12-10";
     find_components _ _ := [];
     translate_issue_type t _ := (t, []);
     translate_component c _ := (c, []);
     CORE_COMPONENT := "Core";
     jira_issue := tracker;
     iteration_order := o |}.

(** One author with the component ["core"] under two issue types. *)
Definition bug_and_improvement : dict (gset string) :=
  [("Bug", {["core"]}); ("Improvement", {["core"]})].

Definition all_yes : Answers := mkAnswers true true true true.

End Demo.

(** ** Tag resolution and further notions *)

(** [while not tag_exists(tag): tag = input(...)]: the answers typed at
    the prompt are a list; running out of answers is the end of the input
    ([None]).  The result is the tag the loop ends with and the answers
    that are left. *)
Fixpoint resolve_tag (tag_exists : string → bool) (tag : string)
    (inputs : list string) : option (string * list string) :=
  if tag_exists tag then Some (tag, inputs)
  else
    match inputs with
    | [] => None
    | answer :: rest => resolve_tag tag_exists answer rest
    end.

(** The two loops of the script, the release tag first. *)
Definition resolve_tags (tag_exists : string → bool)
    (RELEASE_TAG PREVIOUS_RELEASE_TAG : string) (inputs : list string)
  : option (string * string * list string) :=
  '(release_tag, inputs) ← resolve_tag tag_exists RELEASE_TAG inputs;
  '(previous_tag, inputs) ← resolve_tag tag_exists PREVIOUS_RELEASE_TAG inputs;
  Some (release_tag, previous_tag, inputs).

(** All characters of a string satisfy a test. *)
Fixpoint all_chars (p : ascii → bool) (s : string) : bool :=
  match s with
  | EmptyString => true
  | String c r => p c && all_chars p r
  end.

(** The commits the classification sets aside. *)
Definition ignored_commits (b : Buckets) : list Commit :=
  releases b ++ maintenance b ++ reverts b ++ nojiras b.

Section Accounts.
Context `{RU : ReleaseUtils}.

(** The line printed for an issue reference whose query fails. *)
Definition error_line (issue : string) : option string :=
  match jira_issue issue with
  | inl e => Some ("Unexpected error: " +:+ e)
  | inr _ => None
  end.

(** The warnings the two translation helpers append for an issue
    reference whose query succeeds. *)
Definition issue_warnings (_hash issue : string) : list string :=
  match jira_issue issue with
  | inl _ => []
  | inr found =>
      (translate_issue_type (issuetype_name found) issue).2
      ++ (translate_components _hash (component_names found)).2
  end.

(** The line printed at the end of the iteration for a commit. *)
Definition processed_line (st : State) (commit : Commit) : string :=
  "  Processed commit " +:+ get_hash commit +:+ " authored by "
  +:+ identity_of st commit +:+ " on " +:+ get_date (get_hash commit).

(** The raw authors of a list of commits that fail the validity check. *)
Definition invalid_raw_authors (commits : list Commit) : list string :=
  get_author <$> filter (λ c, is_valid_author (get_author c) = false) commits.

End Accounts.

Section Provenance.
Context `{RU : ReleaseUtils}.

(** Where a component of [author_info] can come from: the core default,
    the components inferred for a processed commit, or the translated
    components of an issue the tracker returned for a processed commit. *)
Definition component_source (commits : list Commit) (x : string) : Prop :=
  x = CORE_COMPONENT
  ∨ ∃ c, c ∈ commits
         ∧ (x ∈ find_components (get_title c) (get_hash c)
            ∨ ∃ issue found name,
                issue ∈ commit_issues c ∧ jira_issue issue = inr found
                ∧ name ∈ component_names found
                ∧ x = (translate_component name (get_hash c)).1).

End Provenance.

(** * Properties *)

(** ** The script on the demo history *)

Example end_to_end_single_commit :
  main (RU:=Demo.utils Demo.ascending_order) "v1.2.0-rc0" "v1.1.0" Demo.all_yes
  = Written ["A <a@x.com> -- Bug in Core"] [].
Proof. vm_compute. reflexivity. Qed.

Example end_to_end_release_candidate :
  main (RU:=Demo.utils Demo.ascending_order) "v1.2.0-rc2" "v1.1.0" Demo.all_yes
  = Written
      ["A <a@x.com> -- Bug in Core";
       "C <c@x.com> -- Bug in Core; Improvement in Core and SQL";
       "bob/SPARK-10/SPARK-11 -- Improvement in Core and SQL; Bug in Core; documentation in Core"]
      ["Found the following invalid authors:"; String "009" "bob";
       "Please run './translate-contributors.py' to translate them."].
Proof. vm_compute. reflexivity. Qed.

Example end_to_end_nothing_new :
  main (RU:=Demo.utils Demo.ascending_order) "v1.1.0" "v1.1.0" Demo.all_yes
  = Exit "There are no new commits between v1.1.0 and v1.1.0!".
Proof. vm_compute. reflexivity. Qed.

(** ** Strings *)

Example lower_example : Py.lower "[RELEASE] Revert Docs" = "[release] revert docs".
Proof. reflexivity. Qed.

Example findall_example :
  Py.findall_issues (Py.upper "[spark-12][SPARK-3a] SPARK- x SPARK-77")
  = ["SPARK-12"; "SPARK-3"; "SPARK-77"].
Proof. reflexivity. Qed.

Example has_no_jira_examples :
  has_no_jira "Fix bug SPARK-123" = false ∧ has_no_jira "Fix bug" = true.
Proof. split; reflexivity. Qed.

Lemma title_or_empty_title commit : title_or_empty commit = get_title commit.
Proof. unfold title_or_empty. by destruct (get_title commit). Qed.

Lemma findall_from_no_match s :
  Py.search_issue s = false → ∀ skip, Py.findall_from skip s = [].
Proof.
  induction s as [|c r IH]; intros Hs skip; [done|].
  simpl in Hs. apply orb_false_iff in Hs as [Hhere Hrest].
  apply bool_decide_eq_false in Hhere.
  destruct skip as [|k]; cbn [Py.findall_from]; [|by apply IH].
  destruct (Py.match_issue_at (String c r)) eqn:Hm; [|by apply IH].
  destruct Hhere. by eexists.
Qed.

Lemma findall_issues_nil s :
  Py.findall_issues s = [] ↔ Py.search_issue s = false.
Proof.
  split; [|intros Hs; by apply findall_from_no_match].
  unfold Py.findall_issues. induction s as [|c r IH]; [done|].
  cbn [Py.findall_from Py.search_issue].
  destruct (Py.match_issue_at (String c r)) eqn:Hm; [done|].
  intros Hr. rewrite (IH Hr), orb_false_r.
  apply bool_decide_eq_false. by intros [? ?].
Qed.

(** [has_no_jira] holds exactly of the titles in which [findall] finds no
    issue reference. *)
Lemma has_no_jira_issues commit :
  has_no_jira (get_title commit) = true
  ↔ Py.findall_issues (Py.upper (get_title commit)) = [].
Proof.
  unfold has_no_jira. rewrite findall_issues_nil, negb_true_iff. done.
Qed.

(** ** Commit-set differ *)

Lemma elem_of_previous_release_hashes previous h :
  h ∈ previous_release_hashes previous ↔ ∃ p, p ∈ previous ∧ get_hash p = h.
Proof.
  unfold previous_release_hashes.
  rewrite elem_of_list_to_set, list_elem_of_fmap. naive_solver.
Qed.

Lemma elem_of_previous_release_prs previous n :
  n ∈ previous_release_prs previous ↔
  Py.truthy n = true ∧ ∃ p, p ∈ previous ∧ get_pr_number p = n.
Proof.
  unfold previous_release_prs.
  rewrite elem_of_list_to_set, list_elem_of_fmap.
  setoid_rewrite list_elem_of_filter. naive_solver.
Qed.

Lemma is_new_commit_spec previous c :
  is_new_commit previous c = true ↔
  (get_hash c ∉ previous_release_hashes previous)
  ∧ (Py.truthy (get_pr_number c) = false
     ∨ (get_pr_number c ∉ previous_release_prs previous)).
Proof.
  unfold is_new_commit. rewrite andb_true_iff, bool_decide_eq_true.
  destruct (Py.truthy (get_pr_number c)) eqn:Hpr.
  - rewrite bool_decide_eq_true. naive_solver.
  - naive_solver.
Qed.

Lemma previous_release_prs_non_null previous n :
  n ≠ Some "" →
  (n ∈ previous_release_prs previous ↔ n ∈ non_null_prs previous).
Proof.
  intros Hn. rewrite elem_of_previous_release_prs. unfold non_null_prs.
  rewrite elem_of_list_to_set, list_elem_of_filter, list_elem_of_fmap.
  destruct n as [[|a s]|]; naive_solver.
Qed.

(** The PR number is tested by its truth value: an empty PR number is
    treated like a missing one, on both sides of the comparison. *)
Example empty_pr_number_is_no_pr_number :
  new_commits [mkCommit "a" "Old" "A <a@x.com>" (Some "")]
              [mkCommit "b" "New" "A <a@x.com>" (Some "")]
  = [mkCommit "b" "New" "A <a@x.com>" (Some "")].
Proof. vm_compute. reflexivity. Qed.

(** C1. A commit of the new release is kept exactly when its hash is not a
    hash of the previous release and it has no PR number or its PR number
    is not one of the previous release; a commit whose hash is in the
    previous set is dropped whatever its PR number, and so is a commit
    with a new hash whose PR number is one of the previous release.  The
    script tests the PR number by its truth value, so "no PR number" is
    [None] or the empty string; the last part restates the equivalence
    with [None] and the set of non-null PR numbers for a commit whose PR
    number is not the empty string. *)
Theorem new_commits_spec (previous release : list Commit) (c : Commit) :
  (c ∈ new_commits previous release ↔
     c ∈ release
     ∧ (get_hash c ∉ previous_release_hashes previous)
     ∧ (Py.truthy (get_pr_number c) = false
        ∨ (get_pr_number c ∉ previous_release_prs previous)))
  ∧ (get_hash c ∈ previous_release_hashes previous →
     c ∉ new_commits previous release)
  ∧ (Py.truthy (get_pr_number c) = true →
     get_pr_number c ∈ previous_release_prs previous →
     c ∉ new_commits previous release)
  ∧ (get_pr_number c ≠ Some "" →
     (c ∈ new_commits previous release ↔
        c ∈ release
        ∧ (get_hash c ∉ previous_release_hashes previous)
        ∧ (get_pr_number c = None ∨ (get_pr_number c ∉ non_null_prs previous)))).
Proof.
  assert (Hiff : c ∈ new_commits previous release ↔
     c ∈ release
     ∧ (get_hash c ∉ previous_release_hashes previous)
     ∧ (Py.truthy (get_pr_number c) = false
        ∨ (get_pr_number c ∉ previous_release_prs previous))).
  { unfold new_commits. rewrite list_elem_of_filter, is_new_commit_spec. tauto. }
  split; [exact Hiff|]. split; [|split].
  - rewrite Hiff. tauto.
  - rewrite Hiff. intros Ht Hin [_ [_ [Hf|Hn]]]; [congruence|done].
  - intros Hwf. rewrite Hiff, (previous_release_prs_non_null _ _ Hwf).
    destruct (get_pr_number c) as [[|a s]|]; naive_solver.
Qed.

Lemma new_commits_spec_witness :
  (Demo.picked_y ∉ new_commits [Demo.h1; Demo.fix_y] [Demo.h1; Demo.fix_x; Demo.picked_y])
  ∧ (Demo.h1 ∉ new_commits [Demo.h1; Demo.fix_y] [Demo.h1; Demo.fix_x; Demo.picked_y])
  ∧ Demo.fix_x ∈ new_commits [Demo.h1; Demo.fix_y] [Demo.h1; Demo.fix_x; Demo.picked_y].
Proof.
  split; [|split].
  - destruct (new_commits_spec [Demo.h1; Demo.fix_y]
                [Demo.h1; Demo.fix_x; Demo.picked_y] Demo.picked_y)
      as (_ & _ & Hpr & _).
    apply Hpr; [reflexivity | compute_done].
  - destruct (new_commits_spec [Demo.h1; Demo.fix_y]
                [Demo.h1; Demo.fix_x; Demo.picked_y] Demo.h1)
      as (_ & Hhash & _).
    apply Hhash. compute_done.
  - destruct (new_commits_spec [Demo.h1; Demo.fix_y]
                [Demo.h1; Demo.fix_x; Demo.picked_y] Demo.fix_x)
      as (_ & _ & _ & Hnull).
    apply Hnull; [discriminate|].
    split; [|split]; [compute_done | compute_done | by left].
Defined.

(** ** Classifier *)

Lemma classify_step_category b c :
  classify_step b c =
  match category_of c with
  | ReleaseProcess =>
      mkBuckets (releases b ++ [c]) (maintenance b) (reverts b) (nojiras b)
                (filtered_commits b)
  | Maintenance =>
      mkBuckets (releases b) (maintenance b ++ [c]) (reverts b) (nojiras b)
                (filtered_commits b)
  | Revert =>
      mkBuckets (releases b) (maintenance b) (reverts b ++ [c]) (nojiras b)
                (filtered_commits b)
  | NoIssue =>
      mkBuckets (releases b) (maintenance b) (reverts b) (nojiras b ++ [c])
                (filtered_commits b)
  | Documentation | Normal =>
      mkBuckets (releases b) (maintenance b) (reverts b) (nojiras b)
                (filtered_commits b ++ [c])
  end.
Proof.
  unfold classify_step, category_of, category_of_title, classifier_rules.
  cbn [first_match].
  destruct (is_release _); [done|]. destruct (is_maintenance _); [done|].
  destruct (is_revert _); [done|]. destruct (is_docs _); [done|].
  by destruct (has_no_jira _).
Qed.

Lemma classify_from b commits :
  foldl classify_step b commits =
  mkBuckets (releases b ++ releases (buckets_by_category commits))
            (maintenance b ++ maintenance (buckets_by_category commits))
            (reverts b ++ reverts (buckets_by_category commits))
            (nojiras b ++ nojiras (buckets_by_category commits))
            (filtered_commits b ++ filtered_commits (buckets_by_category commits)).
Proof.
  revert b. induction commits as [|c commits IH]; intros b.
  - destruct b. cbn. by rewrite !app_nil_r.
  - cbn [foldl]. rewrite IH, classify_step_category. clear IH.
    unfold buckets_by_category. cbn [releases maintenance reverts nojiras filtered_commits].
    rewrite !filter_cons.
    destruct (category_of c) eqn:Hcat; cbn [releases maintenance reverts nojiras filtered_commits];
      repeat case_decide; try done; try naive_solver;
      by rewrite <- ?app_assoc.
Qed.

Lemma contains_any_in phrase phrases s :
  phrase ∈ phrases → Py.contains phrase s = true → Py.any_in phrases s = true.
Proof.
  intros Hin Hc. unfold Py.any_in. apply existsb_exists.
  exists phrase. split; [by apply list_elem_of_In|done].
Qed.

(** C2. The classification loop is the ordered rule table (release
    process, maintenance, revert, documentation, no issue, else normal)
    applied to the title of each commit, the first matching rule deciding
    the list the commit is appended to; a title that contains both
    "[release]" and "revert", in any letter case, is a release-process
    title, and its commit goes to the release list and not to the revert
    list. *)
Theorem classifier_first_match_wins :
  (∀ commits, classify_commits commits = buckets_by_category commits)
  ∧ (∀ c1 c2, get_title c1 = get_title c2 → category_of c1 = category_of c2)
  ∧ (∀ title,
       Py.contains "[release]" (Py.lower title) = true →
       Py.contains "revert" (Py.lower title) = true →
       is_revert title = true ∧ category_of_title title = ReleaseProcess)
  ∧ (∀ b c,
       Py.contains "[release]" (Py.lower (get_title c)) = true →
       Py.contains "revert" (Py.lower (get_title c)) = true →
       releases (classify_step b c) = releases b ++ [c]
       ∧ reverts (classify_step b c) = reverts b).
Proof.
  assert (Hrel : ∀ title, Py.contains "[release]" (Py.lower title) = true →
                          category_of_title title = ReleaseProcess).
  { intros title Hc. unfold category_of_title, classifier_rules. cbn [first_match].
    unfold is_release.
    rewrite (contains_any_in "[release]") by (done || set_solver). done. }
  split; [|split; [|split]].
  - intros commits. unfold classify_commits. rewrite classify_from.
    by destruct (buckets_by_category commits).
  - intros c1 c2 Ht. unfold category_of. by rewrite !title_or_empty_title, Ht.
  - intros title H1 H2. split; [exact H2 | by apply Hrel].
  - intros b c H1 _. rewrite classify_step_category. unfold category_of.
    rewrite title_or_empty_title, (Hrel _ H1). done.
Qed.

Lemma classifier_first_match_wins_witness :
  category_of_title (get_title Demo.release_revert) = ReleaseProcess
  ∧ releases (classify_step no_buckets Demo.release_revert) = [Demo.release_revert]
  ∧ reverts (classify_step no_buckets Demo.release_revert) = [].
Proof.
  destruct classifier_first_match_wins as (_ & _ & Htitle & Hstep).
  split.
  - apply (Htitle (get_title Demo.release_revert)); reflexivity.
  - apply (Hstep no_buckets Demo.release_revert); reflexivity.
Defined.

(** ** Dictionaries *)

Section DictFacts.
Context {V : Type}.
Implicit Types (d : dict V) (k : string) (v : V).

Lemma dict_get_set_eq k v d : dict_get k (dict_set k v d) = Some v.
Proof.
  induction d as [|[k' v'] d IH]; cbn.
  - by rewrite decide_True.
  - destruct (decide (k' = k)) as [->|Hne]; cbn.
    + by rewrite decide_True.
    + by rewrite decide_False.
Qed.

Lemma dict_get_set_ne k k' v d :
  k ≠ k' → dict_get k' (dict_set k v d) = dict_get k' d.
Proof.
  intros Hne. induction d as [|[k0 v0] d IH]; cbn.
  - by rewrite decide_False.
  - destruct (decide (k0 = k)) as [->|Hne0]; cbn.
    + by rewrite !decide_False.
    + destruct (decide (k0 = k')); [done|apply IH].
Qed.

Lemma dict_set_set k v v' d : dict_set k v (dict_set k v' d) = dict_set k v d.
Proof.
  induction d as [|[k0 v0] d IH]; cbn.
  - by rewrite decide_True.
  - destruct (decide (k0 = k)) as [->|Hne]; cbn.
    + by rewrite decide_True.
    + rewrite decide_False by done. by rewrite IH.
Qed.

Lemma dict_set_not_nil k v d : dict_set k v d ≠ [].
Proof. destruct d as [|[k0 v0] d]; cbn; [done|]. by destruct (decide (k0 = k)). Qed.

Lemma elem_of_dict_set k v d k' v' :
  (k', v') ∈ dict_set k v d → (k', v') = (k, v) ∨ (k', v') ∈ d.
Proof.
  induction d as [|[k0 v0] d IH]; cbn.
  - intros ->%list_elem_of_singleton. by left.
  - destruct (decide (k0 = k)) as [->|Hne].
    + intros [->|Hin]%elem_of_cons; [by left|]. right. by right.
    + intros [->|Hin]%elem_of_cons; [right; by left|].
      destruct (IH Hin) as [?|?]; [by left|]. right. by right.
Qed.

Lemma dict_get_Some_elem_of k v d : dict_get k d = Some v → (k, v) ∈ d.
Proof.
  induction d as [|[k0 v0] d IH]; cbn; [done|].
  destruct (decide (k0 = k)) as [->|Hne].
  - intros [= ->]. by left.
  - intros Hget. right. by apply IH.
Qed.

Lemma dict_get_is_Some k d : k ∈ dict_keys d → is_Some (dict_get k d).
Proof.
  unfold dict_keys. induction d as [|[k0 v0] d IH]; cbn.
  - by intros ?%elem_of_nil.
  - destruct (decide (k0 = k)) as [->|Hne]; [by eexists|].
    intros [?|Hin]%elem_of_cons; [done|]. by apply IH.
Qed.

End DictFacts.

(** ** Author aggregation *)

Section Aggregation.
Context `{RU : ReleaseUtils}.

Lemma effective_components_not_empty components :
  effective_components components ≠ ∅.
Proof.
  unfold effective_components. case_decide; [|done].
  apply non_empty_singleton_L.
Qed.

(** [populate] in one step: the entry under the author and the issue type
    becomes the union of what was there and the merged components. *)
Lemma populate_eq author issue_type components info :
  populate author issue_type components info =
  dict_set author
    (dict_set issue_type
       (components_of author issue_type info ∪ effective_components components)
       (default [] (dict_get author info)))
    info.
Proof.
  unfold populate, components_of, effective_components.
  destruct (dict_get author info) as [record|] eqn:Ha; cbn.
  - rewrite Ha. cbn.
    destruct (dict_get issue_type record) as [comps|] eqn:Ht; cbn.
    + by rewrite Ht.
    + by rewrite dict_get_set_eq, dict_set_set.
  - rewrite dict_get_set_eq. simpl.
    destruct (decide (issue_type = issue_type)); [|done].
    simpl. by rewrite dict_set_set.
Qed.

Lemma components_of_populate author issue_type components info :
  components_of author issue_type (populate author issue_type components info)
  = components_of author issue_type info ∪ effective_components components.
Proof.
  rewrite populate_eq. unfold components_of at 1.
  rewrite dict_get_set_eq. simpl. by rewrite dict_get_set_eq.
Qed.

(** C8. Merging the same (author, issue type, components) a second time
    changes nothing: the whole map is the one obtained by merging once, so
    the component set filed under the author and the issue type is the
    same set, of the same size. *)
Theorem populate_idempotent (author issue_type : string) (components : gset string)
    (info : dict (dict (gset string))) :
  populate author issue_type components
           (populate author issue_type components info)
  = populate author issue_type components info
  ∧ components_of author issue_type
      (populate author issue_type components
                (populate author issue_type components info))
    = components_of author issue_type (populate author issue_type components info)
  ∧ size (components_of author issue_type
            (populate author issue_type components
                      (populate author issue_type components info)))
    = size (components_of author issue_type
              (populate author issue_type components info)).
Proof.
  assert (Hsame : populate author issue_type components
                    (populate author issue_type components info)
                  = populate author issue_type components info).
  { rewrite (populate_eq _ _ _ (populate _ _ _ _)), components_of_populate.
    rewrite populate_eq at 1 2.
    rewrite dict_get_set_eq. simpl. rewrite !dict_set_set.
    replace (components_of author issue_type info ∪ effective_components components
             ∪ effective_components components)
      with (components_of author issue_type info ∪ effective_components components)
      by set_solver.
    by rewrite populate_eq. }
  rewrite Hsame. done.
Qed.

End Aggregation.

(** ** The compilation loop, field by field *)

Section LoopFacts.
Context `{RU : ReleaseUtils}.

Lemma author_info_enrich_issue _hash author cc st issue :
  author_info (enrich_issue _hash author cc st issue)
  = issue_contribution _hash author cc (author_info st) issue.
Proof.
  unfold enrich_issue, try_enrich, issue_contribution.
  destruct (jira_issue issue) as [e|found]; [done|].
  destruct (translate_issue_type _ _) as [jira_type w1].
  by destruct (translate_components _ _) as [jira_components w2].
Qed.

Lemma tracker_calls_enrich_issue _hash author cc st issue :
  tracker_calls (enrich_issue _hash author cc st issue) = tracker_calls st ++ [issue].
Proof.
  unfold enrich_issue, try_enrich.
  destruct (jira_issue issue) as [e|found]; [done|].
  destruct (translate_issue_type _ _) as [jira_type w1].
  by destruct (translate_components _ _) as [jira_components w2].
Qed.

Lemma invalid_authors_enrich_issue _hash author cc st issue :
  invalid_authors (enrich_issue _hash author cc st issue) = invalid_authors st.
Proof.
  unfold enrich_issue, try_enrich.
  destruct (jira_issue issue) as [e|found]; [done|].
  destruct (translate_issue_type _ _) as [jira_type w1].
  by destruct (translate_components _ _) as [jira_components w2].
Qed.

Lemma author_info_enrich_issues _hash author cc issues st :
  author_info (foldl (enrich_issue _hash author cc) st issues)
  = foldl (issue_contribution _hash author cc) (author_info st) issues.
Proof.
  revert st. induction issues as [|i issues IH]; intros st; [done|].
  cbn [foldl]. by rewrite IH, author_info_enrich_issue.
Qed.

Lemma tracker_calls_enrich_issues _hash author cc issues st :
  tracker_calls (foldl (enrich_issue _hash author cc) st issues)
  = tracker_calls st ++ issues.
Proof.
  revert st. induction issues as [|i issues IH]; intros st; cbn [foldl].
  - by rewrite app_nil_r.
  - by rewrite IH, tracker_calls_enrich_issue, <- app_assoc.
Qed.

Lemma invalid_authors_enrich_issues _hash author cc issues st :
  invalid_authors (foldl (enrich_issue _hash author cc) st issues)
  = invalid_authors st.
Proof.
  revert st. induction issues as [|i issues IH]; intros st; [done|].
  cbn [foldl]. by rewrite IH, invalid_authors_enrich_issue.
Qed.

Lemma resolve_author_fields st author issues :
  author_info (resolve_author st author issues).2 = author_info st
  ∧ tracker_calls (resolve_author st author issues).2 = tracker_calls st
  ∧ invalid_authors (resolve_author st author issues).2
    = if is_valid_author author then invalid_authors st
      else note_invalid_author author issues (invalid_authors st).
Proof. unfold resolve_author. by destruct (is_valid_author author). Qed.

(** [author_info] after one commit: the issue loop, then the
    documentation fallback. *)
Lemma author_info_process_commit st c :
  author_info (process_commit st c)
  = let info :=
      foldl (issue_contribution (get_hash c) (identity_of st c)
               (find_components (get_title c) (get_hash c)))
            (author_info st) (commit_issues c) in
    if is_docs (get_title c) && bool_decide (commit_issues c = [])
    then populate (identity_of st c) "documentation"
           (list_to_set (find_components (get_title c) (get_hash c))) info
    else info.
Proof.
  unfold process_commit, identity_of.
  destruct (resolve_author_fields st (get_author c) (commit_issues c)) as (Hinfo & _).
  destruct (resolve_author st (get_author c) (commit_issues c)) as [author st1].
  cbn [fst snd] in *.
  destruct (is_docs (get_title c) && bool_decide (commit_issues c = []));
    cbn [author_info print set_author_info];
    by rewrite author_info_enrich_issues, Hinfo.
Qed.

Lemma tracker_calls_process_commit st c :
  tracker_calls (process_commit st c) = tracker_calls st ++ commit_issues c.
Proof.
  unfold process_commit.
  destruct (resolve_author_fields st (get_author c) (commit_issues c)) as (_ & Hcalls & _).
  destruct (resolve_author st (get_author c) (commit_issues c)) as [author st1].
  cbn [fst snd] in *.
  destruct (is_docs (get_title c) && bool_decide (commit_issues c = []));
    cbn [tracker_calls print set_author_info];
    by rewrite tracker_calls_enrich_issues, Hcalls.
Qed.

Lemma invalid_authors_process_commit st c :
  invalid_authors (process_commit st c)
  = if is_valid_author (get_author c) then invalid_authors st
    else note_invalid_author (get_author c) (commit_issues c) (invalid_authors st).
Proof.
  unfold process_commit.
  destruct (resolve_author_fields st (get_author c) (commit_issues c)) as (_ & _ & Hinv).
  destruct (resolve_author st (get_author c) (commit_issues c)) as [author st1].
  cbn [fst snd] in *.
  destruct (is_docs (get_title c) && bool_decide (commit_issues c = []));
    cbn [invalid_authors print set_author_info];
    by rewrite invalid_authors_enrich_issues, Hinv.
Qed.

End LoopFacts.

(** ** Non-empty strings *)

Lemma append_not_empty_l (s1 s2 : string) : s1 ≠ "" → s1 +:+ s2 ≠ "".
Proof. by destruct s1. Qed.

Lemma append_not_empty_r (s1 s2 : string) : s2 ≠ "" → s1 +:+ s2 ≠ "".
Proof. destruct s1; [by intros ?|done]. Qed.

Lemma join_not_empty sep x rest : x ≠ "" → Py.join sep (x :: rest) ≠ "".
Proof.
  intros Hx. destruct rest as [|y rest]; [done|].
  change (x +:+ sep +:+ Py.join sep (y :: rest) ≠ "").
  by apply append_not_empty_l.
Qed.

Lemma capitalize_first_is_Some s : s ≠ "" → is_Some (capitalize_first s).
Proof. destruct s; [done|]. by eexists. Qed.

(** ** The invariant of [author_info] *)

Section Invariant.
Context `{RU : ReleaseUtils}.

Lemma well_formed_info_nil : well_formed_info [].
Proof. intros author record Hin. by apply elem_of_nil in Hin. Qed.

Lemma populate_well_formed author issue_type components info :
  well_formed_info info →
  well_formed_info (populate author issue_type components info).
Proof.
  intros Hwf a record Hin. rewrite populate_eq in Hin.
  apply elem_of_dict_set in Hin as [[= -> ->]|Hin]; [|by apply (Hwf a record)].
  split; [apply dict_set_not_nil|].
  intros t comps [[= -> ->]|Hin]%elem_of_dict_set.
  - pose proof (effective_components_not_empty components). set_solver.
  - destruct (dict_get author info) as [old|] eqn:Hget; cbn in Hin.
    + apply dict_get_Some_elem_of in Hget. by eapply (Hwf _ _ Hget).
    + by apply elem_of_nil in Hin.
Qed.

Lemma issue_contribution_well_formed _hash author cc info issue :
  well_formed_info info →
  well_formed_info (issue_contribution _hash author cc info issue).
Proof.
  intros Hwf. unfold issue_contribution.
  destruct (jira_issue issue); [done|]. by apply populate_well_formed.
Qed.

Lemma process_commit_well_formed st c :
  well_formed_info (author_info st) →
  well_formed_info (author_info (process_commit st c)).
Proof.
  intros Hwf. rewrite author_info_process_commit. cbn zeta.
  assert (well_formed_info
            (foldl (issue_contribution (get_hash c) (identity_of st c)
                      (find_components (get_title c) (get_hash c)))
                   (author_info st) (commit_issues c))) as Hloop.
  { generalize (commit_issues c). intros issues. revert Hwf.
    generalize (author_info st). induction issues as [|i issues IH]; intros info Hwf;
      [done|].
    cbn [foldl]. by apply IH, issue_contribution_well_formed. }
  destruct (is_docs _ && _); [by apply populate_well_formed|done].
Qed.

Lemma run_well_formed commits st :
  well_formed_info (author_info st) →
  well_formed_info (author_info (foldl process_commit st commits)).
Proof.
  revert st. induction commits as [|c commits IH]; intros st Hwf; [done|].
  cbn [foldl]. by apply IH, process_commit_well_formed.
Qed.

(** A record with an issue type and no empty component set renders as a
    non-empty clause. *)
Lemma contribution_of_not_empty record :
  record ≠ [] →
  (∀ issue_type comps, (issue_type, comps) ∈ record → comps ≠ ∅) →
  ∃ s, contribution_of record = Some s ∧ s ≠ "".
Proof.
  intros Hne Hsets. unfold contribution_of. case_decide as Hsize.
  - destruct (set_iter (⋃ (record.*2))) as [|c l] eqn:Hiter.
    + pose proof (set_iter_perm (⋃ (record.*2))) as Hperm.
      rewrite Hiter in Hperm. apply Permutation_length in Hperm.
      cbn in Hperm. unfold size, set_size in Hsize. cbn in Hsize. lia.
    + cbn. eexists. split; [done|].
      apply append_not_empty_r. by apply append_not_empty_l.
  - eexists. split; [done|].
    destruct record as [|[t comps] record]; [done|].
    rewrite fmap_cons. apply join_not_empty. apply append_not_empty_r.
    by apply append_not_empty_l.
Qed.

Lemma report_line_is_Some info author :
  well_formed_info info → author ∈ dict_keys info →
  is_Some (report_line info author).
Proof.
  intros Hwf Hin. unfold report_line.
  destruct (dict_get_is_Some _ _ Hin) as [record Hget]. rewrite Hget. cbn.
  destruct (Hwf _ _ (dict_get_Some_elem_of _ _ _ Hget)) as [Hne Hsets].
  destruct (contribution_of_not_empty record Hne Hsets) as (s & -> & Hs). cbn.
  destruct (capitalize_first_is_Some s Hs) as [s' ->]. by eexists.
Qed.

Lemma write_contributors_is_Some info :
  well_formed_info info → is_Some (write_contributors info).
Proof.
  intros Hwf. unfold write_contributors. apply mapM_is_Some, Forall_forall.
  intros author Hin. apply report_line_is_Some; [done|].
  unfold sorted_authors in Hin. by rewrite merge_sort_Permutation in Hin.
Qed.

Lemma main_not_Raised release_tag previous_tag answers :
  main release_tag previous_tag answers ≠ Raised.
Proof.
  unfold main. destruct (new_commits _ _) as [|c new]; [done|].
  destruct (negb (looks_correct answers)); [done|].
  destruct (negb (ok_to_proceed answers)); [done|].
  edestruct write_contributors_is_Some as [lines ->]; [|done].
  apply run_well_formed, well_formed_info_nil.
Qed.

End Invariant.

(** ** The processing queue *)

Lemma classify_commits_buckets commits :
  classify_commits commits = buckets_by_category commits.
Proof.
  unfold classify_commits. rewrite classify_from.
  by destruct (buckets_by_category commits).
Qed.

Lemma category_documentation c :
  category_of c = Documentation → is_docs (get_title c) = true.
Proof.
  unfold category_of, category_of_title, classifier_rules. cbn [first_match].
  rewrite title_or_empty_title.
  destruct (is_release _); [done|]. destruct (is_maintenance _); [done|].
  destruct (is_revert _); [done|]. destruct (is_docs _); [done|].
  by destruct (has_no_jira _).
Qed.

Lemma category_normal c :
  category_of c = Normal → has_no_jira (get_title c) = false.
Proof.
  unfold category_of, category_of_title, classifier_rules. cbn [first_match].
  rewrite title_or_empty_title.
  destruct (is_release _); [done|]. destruct (is_maintenance _); [done|].
  destruct (is_revert _); [done|]. destruct (is_docs _); [done|].
  by destruct (has_no_jira _).
Qed.

(** A queued commit without issue references is a documentation commit. *)
Lemma queued_without_issue_is_docs `{RU : ReleaseUtils} commits c :
  c ∈ filtered_commits (classify_commits commits) →
  commit_issues c = [] → is_docs (get_title c) = true.
Proof.
  rewrite classify_commits_buckets. cbn [filtered_commits buckets_by_category].
  intros [[Hcat|Hcat] _]%list_elem_of_filter Hnone.
  - by apply category_documentation.
  - apply category_normal in Hcat.
    apply has_no_jira_issues in Hnone. congruence.
Qed.

Section Contributions.
Context `{RU : ReleaseUtils}.

Lemma issue_loop_last_success _hash author cc info issues :
  (∃ issue found, issue ∈ issues ∧ jira_issue issue = inr found) →
  ∃ issue_type comps info',
    foldl (issue_contribution _hash author cc) info issues
    = populate author issue_type comps info'.
Proof.
  induction issues as [|i issues IH] using rev_ind.
  - intros (issue & found & Hin & _). by apply elem_of_nil in Hin.
  - intros (issue & found & Hin & Hok). rewrite foldl_app. cbn [foldl].
    unfold issue_contribution at 1.
    destruct (jira_issue i) as [e|found'] eqn:Hi; [|by eauto].
    apply IH. exists issue, found. split; [|done].
    apply elem_of_app in Hin as [Hin|Hin]; [done|].
    apply list_elem_of_singleton in Hin as ->. congruence.
Qed.

Lemma populate_components author issue_type comps info :
  components_of author issue_type (populate author issue_type comps info) ≠ ∅
  ∧ effective_components comps
    ⊆ components_of author issue_type (populate author issue_type comps info)
  ∧ (comps = ∅ →
     CORE_COMPONENT
     ∈ components_of author issue_type (populate author issue_type comps info)).
Proof.
  rewrite components_of_populate.
  pose proof (effective_components_not_empty comps) as Hne.
  split; [set_solver|]. split; [set_solver|].
  intros ->. unfold effective_components. rewrite decide_True by done. set_solver.
Qed.

(** C3, as the code has it.  A commit of the processing queue that has no
    issue reference (it is then a documentation commit), or for which the
    tracker answers at least one of its issue references, leaves
    [author_info] as the result of a [populate] under its identity; the
    component set filed there is not empty, holds the merged components
    and holds the core component when no component was found.  No
    contribution of the commit leaves an empty component set behind. *)
Theorem queued_commit_contributes (commits : list Commit) (c : Commit) (st : State) :
  c ∈ filtered_commits (classify_commits commits) →
  (commit_issues c = []
   ∨ ∃ issue found, issue ∈ commit_issues c ∧ jira_issue issue = inr found) →
  (∃ issue_type comps info',
     author_info (process_commit st c)
     = populate (identity_of st c) issue_type comps info'
     ∧ components_of (identity_of st c) issue_type (author_info (process_commit st c)) ≠ ∅
     ∧ effective_components comps
       ⊆ components_of (identity_of st c) issue_type (author_info (process_commit st c))
     ∧ (comps = ∅ →
        CORE_COMPONENT
        ∈ components_of (identity_of st c) issue_type (author_info (process_commit st c))))
  ∧ (well_formed_info (author_info st) →
     well_formed_info (author_info (process_commit st c))).
Proof.
  intros Hqueue Hok. split; [|apply process_commit_well_formed].
  assert (∃ issue_type comps info',
            author_info (process_commit st c)
            = populate (identity_of st c) issue_type comps info') as Hpop.
  { rewrite author_info_process_commit. cbn zeta.
    destruct Hok as [Hnone|Hsome].
    - rewrite (queued_without_issue_is_docs commits c Hqueue Hnone), Hnone.
      cbn. by eauto.
    - destruct (commit_issues c) as [|i issues] eqn:Hissues.
      { destruct Hsome as (issue & _ & Hin & _). by apply elem_of_nil in Hin. }
      rewrite bool_decide_eq_false_2, andb_false_r by done.
      by apply issue_loop_last_success. }
  destruct Hpop as (issue_type & comps & info' & ->).
  exists issue_type, comps, info'. split; [done|]. apply populate_components.
Qed.

End Contributions.

Lemma queued_commit_contributes_witness :
  ∃ issue_type comps info',
    author_info (process_commit (RU:=Demo.utils Demo.ascending_order)
                   initial_state Demo.mixed_issues)
    = populate (RU:=Demo.utils Demo.ascending_order)
        "C <c@x.com>" issue_type comps info'.
Proof.
  destruct (queued_commit_contributes (RU:=Demo.utils Demo.ascending_order)
              [Demo.fix_x; Demo.mixed_issues] Demo.mixed_issues initial_state)
    as ((issue_type & comps & info' & Hpop & _) & _).
  - compute_done.
  - right. exists "SPARK-10", (mkJiraIssue "Bug" ["Core"]). split; compute_done.
  - by exists issue_type, comps, info'.
Defined.

(** C3 as stated fails: a queued commit whose only issue reference the
    tracker does not answer contributes no entry at all. *)
Lemma unanswered_commit_contributes_nothing :
  Demo.lost_issue ∈ filtered_commits (classify_commits [Demo.lost_issue])
  ∧ author_info (process_commit (RU:=Demo.utils Demo.ascending_order)
                   initial_state Demo.lost_issue) = []
  ∧ main (RU:=Demo.utils Demo.ascending_order) "v1.2.0-rc1" "v1.1.0" Demo.all_yes
    = Written [] [].
Proof. split; [compute_done|]. split; vm_compute; reflexivity. Qed.

(** ** Documentation commits without an issue reference *)

Section Documentation.
Context `{RU : ReleaseUtils}.

(** C5, as the code has it.  A commit whose title matches the
    documentation heuristic, holds no issue reference and matches none of
    the release-process, maintenance and revert rules is appended to the
    processing queue and not to the no-issue list; processing it asks the
    tracker nothing and merges, under the issue type "documentation", the
    components inferred from its title and diff. *)
Theorem documentation_without_issue (c : Commit) :
  is_docs (get_title c) = true →
  has_no_jira (get_title c) = true →
  is_release (get_title c) = false →
  is_maintenance (get_title c) = false →
  is_revert (get_title c) = false →
  category_of c = Documentation
  ∧ (∀ b, filtered_commits (classify_step b c) = filtered_commits b ++ [c]
          ∧ nojiras (classify_step b c) = nojiras b)
  ∧ (∀ st, tracker_calls (process_commit st c) = tracker_calls st
           ∧ author_info (process_commit st c)
             = populate (identity_of st c) "documentation"
                 (list_to_set (find_components (get_title c) (get_hash c)))
                 (author_info st)).
Proof.
  intros Hdocs Hnone Hrel Hmaint Hrev.
  assert (category_of c = Documentation) as Hcat.
  { unfold category_of, category_of_title, classifier_rules. cbn [first_match].
    by rewrite title_or_empty_title, Hrel, Hmaint, Hrev, Hdocs. }
  apply has_no_jira_issues in Hnone.
  split; [done|]. split.
  - intros b. by rewrite classify_step_category, Hcat.
  - intros st. rewrite tracker_calls_process_commit, author_info_process_commit.
    unfold commit_issues. rewrite Hnone, Hdocs, app_nil_r. done.
Qed.

End Documentation.

Lemma documentation_without_issue_witness :
  filtered_commits (classify_step no_buckets Demo.guide) = [Demo.guide]
  ∧ tracker_calls (process_commit (RU:=Demo.utils Demo.ascending_order)
                     initial_state Demo.guide) = []
  ∧ author_info (process_commit (RU:=Demo.utils Demo.ascending_order)
                   initial_state Demo.guide)
    = [("bob/", [("documentation", {["Core"]})])].
Proof.
  destruct (documentation_without_issue (RU:=Demo.utils Demo.ascending_order)
              Demo.guide) as (_ & Hqueue & Hrun); try reflexivity.
  split; [apply (Hqueue no_buckets)|].
  destruct (Hrun initial_state) as [Hcalls Hinfo].
  split; [exact Hcalls|]. rewrite Hinfo. vm_compute. reflexivity.
Defined.

(** C5 as stated fails: a documentation title without issue reference
    that also matches the revert rule is set aside as a revert. *)
Lemma revert_of_docs_is_not_queued :
  is_docs (get_title Demo.revert_docs) = true
  ∧ has_no_jira (get_title Demo.revert_docs) = true
  ∧ filtered_commits (classify_commits [Demo.revert_docs]) = []
  ∧ reverts (classify_commits [Demo.revert_docs]) = [Demo.revert_docs].
Proof. repeat split; reflexivity. Qed.

(** ** Tracker failures *)

Section TrackerFailure.
Context `{RU : ReleaseUtils}.

(** C6. When the tracker query of one issue reference of a commit fails,
    the failure is printed and nothing is merged for that reference; the
    references before and after it are queried and merged as if the
    failing one were not there; the commits that follow are processed;
    and no exception leaves the run. *)
Theorem tracker_failure_is_local (st : State) (c : Commit)
    (before after : list string) (issue e : string) :
  commit_issues c = before ++ issue :: after →
  jira_issue issue = inl e →
  (∀ _hash author cc st0,
     enrich_issue _hash author cc st0 issue
     = print ("Unexpected error: " +:+ e) (record_call issue st0))
  ∧ author_info (process_commit st c)
    = foldl (issue_contribution (get_hash c) (identity_of st c)
               (find_components (get_title c) (get_hash c)))
            (author_info st) (before ++ after)
  ∧ tracker_calls (process_commit st c)
    = tracker_calls st ++ before ++ issue :: after
  ∧ (∀ rest, foldl process_commit st (c :: rest)
             = foldl process_commit (process_commit st c) rest)
  ∧ (∀ release_tag previous_tag answers,
       main release_tag previous_tag answers ≠ Raised).
Proof.
  intros Hissues Hfail. split; [|split; [|split; [|split]]].
  - intros _hash author cc st0. unfold enrich_issue, try_enrich.
    by rewrite Hfail.
  - rewrite author_info_process_commit. cbn zeta. rewrite Hissues.
    rewrite bool_decide_eq_false_2, andb_false_r by (by destruct before).
    rewrite !foldl_app. cbn [foldl].
    unfold issue_contribution at 2. by rewrite Hfail.
  - by rewrite tracker_calls_process_commit, Hissues.
  - done.
  - apply main_not_Raised.
Qed.

End TrackerFailure.

Lemma tracker_failure_is_local_witness :
  author_info (process_commit (RU:=Demo.utils Demo.ascending_order)
                 initial_state Demo.mixed_issues)
  = [("C <c@x.com>", [("Bug", {["Core"]}); ("Improvement", {["SQL"; "Core"]})])]
  ∧ tracker_calls (process_commit (RU:=Demo.utils Demo.ascending_order)
                     initial_state Demo.mixed_issues)
    = ["SPARK-10"; "SPARK-99"; "SPARK-11"].
Proof.
  destruct (tracker_failure_is_local (RU:=Demo.utils Demo.ascending_order)
              initial_state Demo.mixed_issues ["SPARK-10"] ["SPARK-11"]
              "SPARK-99" "issue not found")
    as (_ & Hinfo & Hcalls & _); try reflexivity.
  split; [|exact Hcalls]. rewrite Hinfo. vm_compute. reflexivity.
Defined.

(** ** The report never indexes an empty clause *)

Section Rendering.
Context `{RU : ReleaseUtils}.

(** C9. After the compilation loop every author of [author_info] has at
    least one issue type and every issue type a non-empty component set;
    hence the contribution clause of every author is a non-empty string,
    its first character can be taken, and writing the report raises
    nothing. *)
Theorem report_clause_never_empty (commits : list Commit) :
  (∀ author record,
     (author, record) ∈ author_info (compile_contributors commits) →
     record ≠ [] ∧ ∀ issue_type comps, (issue_type, comps) ∈ record → comps ≠ ∅)
  ∧ (∀ author record,
       dict_get author (author_info (compile_contributors commits)) = Some record →
       ∃ s, contribution_of record = Some s ∧ s ≠ ""
            ∧ is_Some (capitalize_first s))
  ∧ (∀ author,
       author ∈ sorted_authors (author_info (compile_contributors commits)) →
       is_Some (report_line (author_info (compile_contributors commits)) author))
  ∧ is_Some (write_contributors (author_info (compile_contributors commits)))
  ∧ (∀ s, capitalize_first s = None ↔ s = "")
  ∧ (∀ author issue_type comps info,
       components_of author issue_type (populate author issue_type comps info) ≠ ∅).
Proof.
  assert (well_formed_info (author_info (compile_contributors commits))) as Hwf.
  { apply run_well_formed, well_formed_info_nil. }
  split; [exact Hwf|]. split; [|split; [|split; [|split]]].
  - intros author record Hget.
    destruct (Hwf _ _ (dict_get_Some_elem_of _ _ _ Hget)) as [Hne Hsets].
    destruct (contribution_of_not_empty record Hne Hsets) as (s & Hs & Hnes).
    exists s. split; [done|]. split; [done|]. by apply capitalize_first_is_Some.
  - intros author Hin. apply report_line_is_Some; [done|].
    unfold sorted_authors in Hin. by rewrite merge_sort_Permutation in Hin.
  - by apply write_contributors_is_Some.
  - intros s. by destruct s.
  - intros author issue_type comps info. apply populate_components.
Qed.

End Rendering.

(** ** Invalid authors *)

Section InvalidAuthors.
Context `{RU : ReleaseUtils}.

Lemma note_invalid_author_loop author issues (inv : dict (gset string)) :
  default ∅ (dict_get author
    (foldl (λ inv issue,
              dict_set author (default ∅ (dict_get author inv) ∪ {[issue]}) inv)
           inv issues))
  = default ∅ (dict_get author inv) ∪ list_to_set issues.
Proof.
  revert inv. induction issues as [|i issues IH]; intros inv; cbn [foldl].
  - cbn. by rewrite union_empty_r_L.
  - rewrite IH, dict_get_set_eq. cbn. set_solver.
Qed.

Lemma note_invalid_author_get author issues (inv : dict (gset string)) :
  default ∅ (dict_get author (note_invalid_author author issues inv))
  = default ∅ (dict_get author inv) ∪ list_to_set issues.
Proof.
  unfold note_invalid_author. rewrite note_invalid_author_loop.
  destruct (dict_get author inv) eqn:Hget; [by rewrite Hget|].
  by rewrite dict_get_set_eq.
Qed.

Lemma note_invalid_author_is_Some author issues (inv : dict (gset string)) :
  is_Some (dict_get author (note_invalid_author author issues inv)).
Proof.
  unfold note_invalid_author.
  assert (∀ inv0 : dict (gset string), is_Some (dict_get author inv0) →
    is_Some (dict_get author
      (foldl (λ inv issue,
                dict_set author (default ∅ (dict_get author inv) ∪ {[issue]}) inv)
             inv0 issues))) as Hloop.
  { induction issues as [|i issues IH]; intros inv0 Hsome; [done|].
    cbn [foldl]. apply IH. rewrite dict_get_set_eq. by eexists. }
  apply Hloop. destruct (dict_get author inv) eqn:Hget.
  - rewrite Hget. by eexists.
  - rewrite dict_get_set_eq. by eexists.
Qed.

Lemma note_invalid_author_other author other issues (inv : dict (gset string)) :
  author ≠ other →
  dict_get other (note_invalid_author author issues inv) = dict_get other inv.
Proof.
  intros Hne. unfold note_invalid_author.
  assert (∀ inv0 : dict (gset string),
    dict_get other
      (foldl (λ inv issue,
                dict_set author (default ∅ (dict_get author inv) ∪ {[issue]}) inv)
             inv0 issues)
    = dict_get other inv0) as Hloop.
  { induction issues as [|i issues IH]; intros inv0; [done|].
    cbn [foldl]. by rewrite IH, dict_get_set_ne. }
  rewrite Hloop. destruct (dict_get author inv); [done|].
  by rewrite dict_get_set_ne.
Qed.

Lemma issues_seen_cons author c commits :
  issues_seen author (c :: commits)
  = if decide (get_author c = author)
    then list_to_set (commit_issues c) ∪ issues_seen author commits
    else issues_seen author commits.
Proof. unfold issues_seen. rewrite filter_cons. by case_decide. Qed.

Lemma issues_seen_snoc author commits c :
  get_author c = author →
  issues_seen author (commits ++ [c])
  = issues_seen author commits ∪ list_to_set (commit_issues c).
Proof.
  intros Ha. unfold issues_seen.
  rewrite filter_app, fmap_app, union_list_app_L.
  rewrite filter_cons, decide_True by done. cbn. set_solver.
Qed.

Lemma elem_of_issues_seen author commits i :
  i ∈ issues_seen author commits
  ↔ ∃ c, c ∈ commits ∧ get_author c = author ∧ i ∈ commit_issues c.
Proof.
  unfold issues_seen. rewrite elem_of_union_list. split.
  - intros (X & HX & Hi). apply list_elem_of_fmap in HX as (c & -> & Hc).
    apply list_elem_of_filter in Hc as [Ha Hc].
    apply elem_of_list_to_set in Hi. by eauto.
  - intros (c & Hc & Ha & Hi). exists (list_to_set (commit_issues c)).
    split; [|by apply elem_of_list_to_set].
    apply list_elem_of_fmap. exists c. split; [done|].
    by apply list_elem_of_filter.
Qed.

(** The set kept for an invalid raw author holds the issue references of
    all its processed commits. *)
Lemma invalid_authors_run commits st author :
  is_valid_author author = false →
  default ∅ (dict_get author (invalid_authors (foldl process_commit st commits)))
  = default ∅ (dict_get author (invalid_authors st)) ∪ issues_seen author commits.
Proof.
  intros Hinvalid. revert st.
  induction commits as [|c commits IH]; intros st; cbn [foldl].
  - unfold issues_seen. cbn. by rewrite union_empty_r_L.
  - rewrite IH, invalid_authors_process_commit, issues_seen_cons.
    case_decide as Ha.
    + rewrite Ha, Hinvalid, note_invalid_author_get. set_solver.
    + destruct (is_valid_author (get_author c)); [done|].
      by rewrite note_invalid_author_other.
Qed.

Lemma set_iter_empty : set_iter ∅ = [].
Proof.
  apply Permutation_nil_r. by rewrite set_iter_perm, elements_empty.
Qed.

Lemma set_iter_NoDup s : NoDup (set_iter s).
Proof. rewrite set_iter_perm. apply NoDup_elements. Qed.

Lemma elem_of_set_iter s x : x ∈ set_iter s ↔ x ∈ s.
Proof. by rewrite set_iter_perm, elem_of_elements. Qed.

(** C7. A commit whose raw author is not of the valid shape is aggregated
    under the raw author followed by "/" and the "/"-separated issue
    references of the set kept for that raw author: the references,
    without repetition, of this commit and of all commits of the same raw
    author processed before it.  The set only grows from one commit of the
    author to the next. *)
Theorem invalid_author_identity (processed : list Commit) (c : Commit) :
  is_valid_author (get_author c) = false →
  identity_of (compile_contributors processed) c
  = get_author c +:+ "/"
    +:+ Py.join "/" (set_iter (issues_seen (get_author c) (processed ++ [c])))
  ∧ NoDup (set_iter (issues_seen (get_author c) (processed ++ [c])))
  ∧ (∀ i, i ∈ set_iter (issues_seen (get_author c) (processed ++ [c]))
          ↔ ∃ c', c' ∈ processed ++ [c] ∧ get_author c' = get_author c
                  ∧ i ∈ commit_issues c')
  ∧ issues_seen (get_author c) processed
    ⊆ issues_seen (get_author c) (processed ++ [c])
  ∧ author_info (process_commit (compile_contributors processed) c)
    = (let info :=
         foldl (issue_contribution (get_hash c)
                  (identity_of (compile_contributors processed) c)
                  (find_components (get_title c) (get_hash c)))
               (author_info (compile_contributors processed)) (commit_issues c) in
       if is_docs (get_title c) && bool_decide (commit_issues c = [])
       then populate (identity_of (compile_contributors processed) c)
              "documentation"
              (list_to_set (find_components (get_title c) (get_hash c))) info
       else info).
Proof.
  intros Hinvalid. split; [|split; [|split; [|split]]].
  - unfold identity_of, resolve_author. rewrite Hinvalid. cbn [fst].
    rewrite note_invalid_author_get. unfold compile_contributors.
    rewrite (invalid_authors_run _ _ _ Hinvalid). cbn [initial_state invalid_authors dict_get].
    rewrite issues_seen_snoc by done. cbn. by rewrite union_empty_l_L.
  - apply set_iter_NoDup.
  - intros i. by rewrite elem_of_set_iter, elem_of_issues_seen.
  - rewrite issues_seen_snoc by done. set_solver.
  - apply author_info_process_commit.
Qed.

(** C10. The rewrite does not depend on issue references having been
    seen: when the set kept for the raw author of a commit is empty after
    the commit was noted, the identity is the raw author followed by a
    single "/", and the author is recorded with the empty set. *)
Theorem invalid_author_without_issue (st : State) (c : Commit) :
  is_valid_author (get_author c) = false →
  default ∅ (dict_get (get_author c) (invalid_authors (process_commit st c))) = ∅ →
  identity_of st c = get_author c +:+ "/"
  ∧ dict_get (get_author c) (invalid_authors (process_commit st c)) = Some ∅.
Proof.
  intros Hinvalid. rewrite invalid_authors_process_commit, Hinvalid.
  intros Hempty. split.
  - unfold identity_of, resolve_author. rewrite Hinvalid. cbn [fst].
    rewrite Hempty, set_iter_empty. reflexivity.
  - destruct (note_invalid_author_is_Some (get_author c) (commit_issues c)
                (invalid_authors st)) as [s Hs].
    rewrite Hs in Hempty |- *. cbn in Hempty. by rewrite Hempty.
Qed.

End InvalidAuthors.

Lemma invalid_author_identity_witness :
  identity_of (RU:=Demo.utils Demo.ascending_order)
    (compile_contributors (RU:=Demo.utils Demo.ascending_order) [Demo.guide])
    Demo.fix_y
  = "bob/SPARK-10/SPARK-11".
Proof.
  destruct (invalid_author_identity (RU:=Demo.utils Demo.ascending_order)
              [Demo.guide] Demo.fix_y) as (Hid & _); [reflexivity|].
  rewrite Hid. vm_compute. reflexivity.
Defined.

Lemma invalid_author_without_issue_witness :
  identity_of (RU:=Demo.utils Demo.ascending_order) initial_state Demo.guide
  = "bob/".
Proof.
  destruct (invalid_author_without_issue (RU:=Demo.utils Demo.ascending_order)
              initial_state Demo.guide) as (Hid & _);
    [reflexivity | vm_compute; reflexivity | exact Hid].
Defined.

(** ** Report clause of an author with a single component *)

Lemma nice_join_many x y l z :
  nice_join (x :: y :: l ++ [z])
  = Py.join ", " (x :: y :: l) +:+ ", and " +:+ z.
Proof.
  destruct l as [|w l]; [done|].
  transitivity
    (Py.join ", " (take (length ((x :: y :: w :: l) ++ [z]) - 1)
                        ((x :: y :: w :: l) ++ [z]))
     +:+ ", and " +:+ default "" (last ((x :: y :: w :: l) ++ [z]))); [done|].
  rewrite last_snoc, take_app_length'; [done|].
  rewrite length_app. cbn. lia.
Qed.

Section SingleComponent.
Context `{RU : ReleaseUtils}.

Lemma set_iter_singleton c : set_iter {[c]} = [c].
Proof.
  apply Permutation_singleton_r. by rewrite set_iter_perm, elements_singleton.
Qed.

Lemma single_component_contribution record c :
  ⋃ (record.*2) = {[c]} →
  contribution_of record
  = Some (nice_join (set_iter (list_to_set (record.*1))) +:+ " in " +:+ c).
Proof.
  intros Hone. unfold contribution_of. rewrite Hone.
  rewrite decide_True by apply size_singleton.
  by rewrite set_iter_singleton.
Qed.

End SingleComponent.

Section SingleComponentClause.
Context `{RU : ReleaseUtils}.

Lemma two_issue_types_orders :
  set_iter (list_to_set ["Bug"; "Improvement"]) = ["Bug"; "Improvement"]
  ∨ set_iter (list_to_set ["Bug"; "Improvement"]) = ["Improvement"; "Bug"].
Proof.
  apply Permutation_length_2_inv. symmetry.
  rewrite set_iter_perm. apply elements_list_to_set.
  apply NoDup_cons. split; [set_solver|]. apply NoDup_singleton.
Qed.

(** C4, as the code has it.  For an author whose record holds exactly one
    distinct component, the clause is the issue types, joined by the
    joining rule in the order in which their set is iterated, followed by
    " in " and the component, with its first character capitalised and the
    rest unchanged.  The joining rule: a single item as it is, two items
    with " and ", three or more separated by ", " with ", and " before the
    last.  With the component "core" and the issue types "Bug" and
    "Improvement" the clause is "Bug and Improvement in core" when the set
    of issue types is iterated with "Bug" first and "Improvement and Bug
    in core" otherwise. *)
Theorem single_component_clause (info : dict (dict (gset string)))
    (author : string) (record : dict (gset string)) (c : string) :
  dict_get author info = Some record →
  ⋃ (record.*2) = {[c]} →
  report_line info author
  = (λ clause, author +:+ " -- " +:+ clause)
      <$> capitalize_first
            (nice_join (set_iter (list_to_set (record.*1))) +:+ " in " +:+ c)
  ∧ (∀ x rest, capitalize_first (String x rest) = Some (String (Py.upper_char x) rest))
  ∧ (∀ x, nice_join [x] = x)
  ∧ (∀ x y, nice_join [x; y] = x +:+ " and " +:+ y)
  ∧ (∀ x y l z, nice_join (x :: y :: l ++ [z])
                = Py.join ", " (x :: y :: l) +:+ ", and " +:+ z)
  ∧ (report_line [(author, Demo.bug_and_improvement)] author
     = Some (author +:+ " -- Bug and Improvement in core")
     ∨ report_line [(author, Demo.bug_and_improvement)] author
       = Some (author +:+ " -- Improvement and Bug in core"))
  ∧ (set_iter (list_to_set ["Bug"; "Improvement"]) = ["Bug"; "Improvement"] →
     report_line [(author, Demo.bug_and_improvement)] author
     = Some (author +:+ " -- Bug and Improvement in core")).
Proof.
  intros Hget Hone.
  assert (∀ order,
    set_iter (list_to_set ["Bug"; "Improvement"]) = order →
    report_line [(author, Demo.bug_and_improvement)] author
    = (λ clause, author +:+ " -- " +:+ clause)
        <$> capitalize_first (nice_join order +:+ " in core")) as Hdemo.
  { intros order Horder. unfold report_line. cbn [dict_get].
    rewrite decide_True by done. cbn [mbind option_bind].
    rewrite (single_component_contribution _ "core") by (cbn; set_solver).
    cbn [fmap list_fmap fst Demo.bug_and_improvement]. rewrite Horder. cbn.
    by destruct (capitalize_first _). }
  split; [|split; [|split; [|split; [|split; [|split]]]]].
  - unfold report_line. rewrite Hget. cbn [mbind option_bind].
    rewrite (single_component_contribution _ c Hone). cbn.
    by destruct (capitalize_first _).
  - done.
  - done.
  - done.
  - apply nice_join_many.
  - destruct two_issue_types_orders as [Horder|Horder];
      rewrite (Hdemo _ Horder); [by left|by right].
  - intros Horder. by rewrite (Hdemo _ Horder).
Qed.

End SingleComponentClause.

Lemma single_component_clause_witness :
  report_line (RU:=Demo.utils Demo.ascending_order)
    [("A <a@x.com>", Demo.bug_and_improvement)] "A <a@x.com>"
  = Some "A <a@x.com> -- Bug and Improvement in core".
Proof.
  destruct (single_component_clause (RU:=Demo.utils Demo.ascending_order)
              [("A <a@x.com>", Demo.bug_and_improvement)] "A <a@x.com>"
              Demo.bug_and_improvement "core")
    as (_ & _ & _ & _ & _ & _ & Hfirst); [reflexivity | compute_done |].
  apply Hfirst. vm_compute. reflexivity.
Defined.

(** C4 as stated fails: under an iteration order that yields
    "Improvement" before "Bug" the clause is not "Bug and Improvement in
    core". *)
Lemma improvement_first_clause :
  report_line (RU:=Demo.utils Demo.descending_order)
    [("A <a@x.com>", Demo.bug_and_improvement)] "A <a@x.com>"
  = Some "A <a@x.com> -- Improvement and Bug in core"
  ∧ report_line (RU:=Demo.utils Demo.descending_order)
      [("A <a@x.com>", Demo.bug_and_improvement)] "A <a@x.com>"
    ≠ Some "A <a@x.com> -- Bug and Improvement in core".
Proof. split; [vm_compute; reflexivity|]. vm_compute. discriminate. Qed.

(** * Further properties of the script *)

(** ** Commit-set differ *)

(** X1. The new commits are the release commits in their order with some
    left out: no commit of the previous release is among them, filtering
    a second time changes nothing, and against an empty previous release
    every commit is new. *)
Theorem new_commits_sublist (previous release : list Commit) :
  new_commits previous release `sublist_of` release
  ∧ (∀ c, c ∈ previous → c ∉ new_commits previous release)
  ∧ new_commits previous (new_commits previous release) = new_commits previous release
  ∧ new_commits [] release = release.
Proof.
  split; [apply sublist_filter|]. split; [|split].
  - intros c Hc Hin. unfold new_commits in Hin.
    apply list_elem_of_filter in Hin as [Hnew _].
    apply is_new_commit_spec in Hnew as [Hhash _]. apply Hhash.
    apply elem_of_previous_release_hashes. by exists c.
  - unfold new_commits. induction release as [|c release IH]; [done|].
    rewrite filter_cons. case_decide as Hc; [|done].
    by rewrite filter_cons, decide_True, IH.
  - unfold new_commits. induction release as [|c release IH]; [done|].
    rewrite filter_cons_True, IH; [done|].
    apply is_new_commit_spec. split; [set_solver|].
    right. rewrite elem_of_previous_release_prs. by intros (_ & p & ?%elem_of_nil & _).
Qed.

(** X2. When no commit of the release shares its hash with a commit of the
    previous release, nor a PR number that counts as one, every release
    commit is new. *)
Theorem new_commits_disjoint (previous release : list Commit) :
  (∀ c p, c ∈ release → p ∈ previous →
     get_hash c ≠ get_hash p
     ∧ (Py.truthy (get_pr_number c) = true → get_pr_number c ≠ get_pr_number p)) →
  new_commits previous release = release.
Proof.
  intros Hdisjoint. unfold new_commits.
  assert (∀ c, c ∈ release → is_new_commit previous c = true) as Hall.
  { intros c Hc. apply is_new_commit_spec. split.
    - rewrite elem_of_previous_release_hashes. intros (p & Hp & Heq).
      by destruct (Hdisjoint c p Hc Hp) as [Hne _].
    - destruct (Py.truthy (get_pr_number c)) eqn:Hpr; [right|by left].
      rewrite elem_of_previous_release_prs. intros (_ & p & Hp & Heq).
      destruct (Hdisjoint c p Hc Hp) as [_ Hne]. by apply Hne. }
  clear Hdisjoint. induction release as [|c release IH]; [done|].
  rewrite filter_cons_True by (apply Hall; left).
  rewrite IH; [done|]. intros c' Hc'. apply Hall. by right.
Qed.

Lemma new_commits_disjoint_witness :
  new_commits [Demo.h1] [Demo.fix_x; Demo.fix_y] = [Demo.fix_x; Demo.fix_y].
Proof.
  apply (new_commits_disjoint [Demo.h1] [Demo.fix_x; Demo.fix_y]).
  intros c p Hc Hp.
  apply list_elem_of_singleton in Hp as ->.
  apply elem_of_cons in Hc as [->|Hc];
    [|apply list_elem_of_singleton in Hc as ->]; split; discriminate.
Defined.

(** ** Classifier *)

(** X3. The classification loop puts every commit in exactly one of its
    five lists: the lists together are a rearrangement of the commits,
    each list keeps the commits in their order, and the lengths add up. *)
Theorem classification_partitions (commits : list Commit) :
  ignored_commits (classify_commits commits)
  ++ filtered_commits (classify_commits commits) ≡ₚ commits
  ∧ length (releases (classify_commits commits))
    + length (maintenance (classify_commits commits))
    + length (reverts (classify_commits commits))
    + length (nojiras (classify_commits commits))
    + length (filtered_commits (classify_commits commits))
    = length commits
  ∧ releases (classify_commits commits) `sublist_of` commits
  ∧ maintenance (classify_commits commits) `sublist_of` commits
  ∧ reverts (classify_commits commits) `sublist_of` commits
  ∧ nojiras (classify_commits commits) `sublist_of` commits
  ∧ filtered_commits (classify_commits commits) `sublist_of` commits.
Proof.
  rewrite classify_commits_buckets. unfold ignored_commits.
  cbn [releases maintenance reverts nojiras filtered_commits buckets_by_category].
  assert (filter (λ c, category_of c = ReleaseProcess) commits
          ++ filter (λ c, category_of c = Maintenance) commits
          ++ filter (λ c, category_of c = Revert) commits
          ++ filter (λ c, category_of c = NoIssue) commits
          ++ filter (λ c, category_of c = Documentation ∨ category_of c = Normal) commits
          ≡ₚ commits) as Hperm.
  { induction commits as [|c commits IH]; [done|].
    rewrite !filter_cons.
    destruct (category_of c) eqn:Hcat; repeat case_decide; try done;
      try naive_solver; cbn [app];
      symmetry; rewrite ?app_assoc; apply Permutation_cons_app;
      rewrite <- ?app_assoc; symmetry; exact IH. }
  split; [by rewrite <- !app_assoc|]. split.
  - apply Permutation_length in Hperm. rewrite !length_app in Hperm. lia.
  - repeat split; apply sublist_filter.
Qed.

Lemma has_no_jira_false commit :
  has_no_jira (get_title commit) = false ↔ commit_issues commit ≠ [].
Proof.
  unfold commit_issues. rewrite <- has_no_jira_issues.
  by destruct (has_no_jira (get_title commit)).
Qed.

(** X4. A commit is in the processing queue exactly when it is one of the
    classified commits, its title matches none of the release-process,
    maintenance and revert rules, and the title matches the documentation
    heuristic or holds an issue reference; it is in the no-issue list
    exactly when it matches none of the four heuristics and holds no
    issue reference. *)
Theorem queue_membership (commits : list Commit) (c : Commit) :
  (c ∈ filtered_commits (classify_commits commits) ↔
     c ∈ commits
     ∧ is_release (get_title c) = false
     ∧ is_maintenance (get_title c) = false
     ∧ is_revert (get_title c) = false
     ∧ (is_docs (get_title c) = true ∨ commit_issues c ≠ []))
  ∧ (c ∈ nojiras (classify_commits commits) ↔
       c ∈ commits
       ∧ is_release (get_title c) = false
       ∧ is_maintenance (get_title c) = false
       ∧ is_revert (get_title c) = false
       ∧ is_docs (get_title c) = false
       ∧ commit_issues c = []).
Proof.
  rewrite classify_commits_buckets.
  cbn [nojiras filtered_commits buckets_by_category].
  rewrite !list_elem_of_filter, <- has_no_jira_false.
  unfold commit_issues. rewrite <- has_no_jira_issues.
  unfold category_of, category_of_title, classifier_rules. cbn [first_match].
  rewrite title_or_empty_title.
  destruct (is_release _), (is_maintenance _), (is_revert _), (is_docs _),
    (has_no_jira _); naive_solver.
Qed.

(** ** Letter case *)







(** ** Issue references *)

Lemma take_digits_all_digits s : all_chars Py.is_digit (Py.take_digits s) = true.
Proof.
  induction s as [|c s IH]; [done|]. cbn.
  destruct (Py.is_digit c) eqn:Hc; [|done]. cbn. by rewrite Hc, IH.
Qed.

Lemma match_issue_at_shape s m :
  Py.match_issue_at s = Some m →
  ∃ digits, m = "SPARK-" +:+ digits ∧ digits ≠ ""
            ∧ all_chars Py.is_digit digits = true.
Proof.
  unfold Py.match_issue_at. destruct (String.prefix _ _); [|done].
  pose proof (take_digits_all_digits (Py.drop_chars 6 s)) as Hdigits.
  destruct (Py.take_digits (Py.drop_chars 6 s)) as [|d ds]; [done|].
  intros [= <-]. by exists (String d ds).
Qed.

Lemma commit_issues_shape commit issue :
  issue ∈ commit_issues commit →
  ∃ digits, issue = "SPARK-" +:+ digits ∧ digits ≠ ""
            ∧ all_chars Py.is_digit digits = true.
Proof.
  unfold commit_issues, Py.findall_issues.
  generalize (Py.upper (get_title commit)) 0. intros s.
  induction s as [|c r IH]; intros skip; [by intros ?%elem_of_nil|].
  cbn [Py.findall_from]. destruct skip as [|k]; [|by apply IH].
  destruct (Py.match_issue_at (String c r)) as [m|] eqn:Hm; [|by apply IH].
  intros [->|Hin]%elem_of_cons; [by eapply match_issue_at_shape|by eapply IH].
Qed.

(** X6. Every issue reference taken from a title is "SPARK-" followed by
    a non-empty run of decimal digits, whatever the letter case of the
    title; a title in which the pattern is not found yields none, which is
    exactly when [has_no_jira] holds. *)
Theorem issue_references_shape (commit : Commit) :
  (∀ issue, issue ∈ commit_issues commit →
     ∃ digits, issue = "SPARK-" +:+ digits ∧ digits ≠ ""
               ∧ all_chars Py.is_digit digits = true)
  ∧ (commit_issues commit = [] ↔ has_no_jira (get_title commit) = true).
Proof.
  split; [apply commit_issues_shape|by rewrite has_no_jira_issues].
Qed.

(** ** What the compilation loop queries and prints *)

Section LoopAccounts.
Context `{RU : ReleaseUtils}.

Lemma stdout_enrich_issue _hash author cc st issue :
  stdout (enrich_issue _hash author cc st issue)
  = stdout st ++ option_list (error_line issue).
Proof.
  unfold enrich_issue, try_enrich, error_line.
  destruct (jira_issue issue) as [e|found]; [done|].
  destruct (translate_issue_type _ _) as [jira_type w1].
  destruct (translate_components _ _) as [jira_components w2].
  cbn. by rewrite app_nil_r.
Qed.

Lemma warnings_enrich_issue _hash author cc st issue :
  warnings (enrich_issue _hash author cc st issue)
  = warnings st ++ issue_warnings _hash issue.
Proof.
  unfold enrich_issue, try_enrich, issue_warnings.
  destruct (jira_issue issue) as [e|found]; [cbn; by rewrite app_nil_r|].
  destruct (translate_issue_type _ _) as [jira_type w1].
  destruct (translate_components _ _) as [jira_components w2].
  cbn. by rewrite <- app_assoc.
Qed.

Lemma stdout_enrich_issues _hash author cc issues st :
  stdout (foldl (enrich_issue _hash author cc) st issues)
  = stdout st ++ omap error_line issues.
Proof.
  revert st. induction issues as [|i issues IH]; intros st; cbn [foldl].
  - cbn. by rewrite app_nil_r.
  - rewrite IH, stdout_enrich_issue, <- app_assoc. f_equal.
    cbn. by destruct (error_line i).
Qed.

Lemma warnings_enrich_issues _hash author cc issues st :
  warnings (foldl (enrich_issue _hash author cc) st issues)
  = warnings st ++ concat (issue_warnings _hash <$> issues).
Proof.
  revert st. induction issues as [|i issues IH]; intros st; cbn [foldl].
  - cbn. by rewrite app_nil_r.
  - by rewrite IH, warnings_enrich_issue, <- app_assoc.
Qed.

Lemma stdout_process_commit st c :
  stdout (process_commit st c)
  = stdout st ++ omap error_line (commit_issues c) ++ [processed_line st c].
Proof.
  unfold process_commit, processed_line, identity_of.
  assert (stdout (resolve_author st (get_author c) (commit_issues c)).2 = stdout st)
    as Hout by (unfold resolve_author; by destruct (is_valid_author _)).
  destruct (resolve_author st (get_author c) (commit_issues c)) as [author st1].
  cbn [fst snd] in *.
  destruct (is_docs (get_title c) && bool_decide (commit_issues c = []));
    cbn [stdout print set_author_info];
    by rewrite stdout_enrich_issues, Hout, <- app_assoc.
Qed.

Lemma warnings_process_commit st c :
  warnings (process_commit st c)
  = warnings st ++ concat (issue_warnings (get_hash c) <$> commit_issues c).
Proof.
  unfold process_commit.
  assert (warnings (resolve_author st (get_author c) (commit_issues c)).2 = warnings st)
    as Hw by (unfold resolve_author; by destruct (is_valid_author _)).
  destruct (resolve_author st (get_author c) (commit_issues c)) as [author st1].
  cbn [fst snd] in *.
  destruct (is_docs (get_title c) && bool_decide (commit_issues c = []));
    cbn [warnings print set_author_info];
    by rewrite warnings_enrich_issues, Hw.
Qed.

(** X7. The loop asks the tracker once for every issue reference of every
    commit it processes, in the order of the commits and of the references
    in each title, and asks nothing else; a reference that occurs twice is
    asked twice. *)
Theorem tracker_queries_account (commits : list Commit) (st : State) :
  tracker_calls (foldl process_commit st commits)
  = tracker_calls st ++ concat (commit_issues <$> commits)
  ∧ tracker_calls (compile_contributors commits) = concat (commit_issues <$> commits)
  ∧ length (tracker_calls (compile_contributors commits))
    = sum_list (length ∘ commit_issues <$> commits).
Proof.
  assert (∀ st, tracker_calls (foldl process_commit st commits)
                = tracker_calls st ++ concat (commit_issues <$> commits)) as Hcalls.
  { induction commits as [|c commits IH]; intros st0; cbn [foldl].
    - cbn. by rewrite app_nil_r.
    - by rewrite IH, tracker_calls_process_commit, <- app_assoc. }
  split; [apply Hcalls|]. unfold compile_contributors. rewrite Hcalls.
  split; [done|]. cbn. clear Hcalls.
  induction commits as [|c commits IH]; [done|].
  cbn. by rewrite length_app, IH.
Qed.

(** X8. Processing a commit prints one line for every issue reference
    whose query fails, in order, and then the line naming the commit, its
    identity and its date; it appends to the warnings exactly what the
    translation helpers report for the references whose query succeeds.
    Over a run the printed lines number the commits plus the failed
    queries. *)
Theorem loop_output_account (commits : list Commit) (st : State) (c : Commit) :
  stdout (process_commit st c)
  = stdout st ++ omap error_line (commit_issues c) ++ [processed_line st c]
  ∧ warnings (process_commit st c)
    = warnings st ++ concat (issue_warnings (get_hash c) <$> commit_issues c)
  ∧ length (stdout (compile_contributors commits))
    = length commits
      + length (omap error_line (concat (commit_issues <$> commits))).
Proof.
  split; [apply stdout_process_commit|]. split; [apply warnings_process_commit|].
  unfold compile_contributors.
  assert (∀ st0, length (stdout (foldl process_commit st0 commits))
                 = length (stdout st0) + length commits
                   + length (omap error_line (concat (commit_issues <$> commits))))
    as Hlen.
  { induction commits as [|c0 commits IH]; intros st0; cbn [foldl].
    - cbn. lia.
    - rewrite IH, stdout_process_commit. cbn [fmap list_fmap concat].
      rewrite omap_app, !length_app. cbn. lia. }
  rewrite Hlen. cbn. lia.
Qed.

End LoopAccounts.

(** ** The record of invalid authors *)

Lemma dict_keys_set {V} (k : string) (v : V) (d : dict V) :
  dict_keys (dict_set k v d)
  = if decide (k ∈ dict_keys d) then dict_keys d else dict_keys d ++ [k].
Proof.
  unfold dict_keys. induction d as [|[k0 v0] d IH]; cbn.
  - rewrite decide_False; [done|]. by intros ?%elem_of_nil.
  - destruct (decide (k0 = k)) as [->|Hne]; cbn.
    + rewrite decide_True; [done|]. by left.
    + rewrite IH. case_decide as Hin.
      * rewrite decide_True; [done|]. by right.
      * rewrite decide_False; [done|].
        intros [?|?]%elem_of_cons; [congruence|done].
Qed.

Lemma dict_get_None_keys {V} (k : string) (d : dict V) :
  dict_get k d = None ↔ k ∉ dict_keys d.
Proof.
  unfold dict_keys. induction d as [|[k0 v0] d IH]; cbn.
  - split; [intros _ ?%elem_of_nil; done|done].
  - destruct (decide (k0 = k)) as [->|Hne].
    + split; [done|]. intros Hnot. destruct Hnot. by left.
    + rewrite IH. split.
      * intros Hnot [?|?]%elem_of_cons; [congruence|done].
      * intros Hnot Hin. apply Hnot. by right.
Qed.

Section InvalidRecord.
Context `{RU : ReleaseUtils}.

Lemma note_invalid_author_keys author issues (inv : dict (gset string)) :
  dict_keys (note_invalid_author author issues inv)
  = if decide (author ∈ dict_keys inv) then dict_keys inv
    else dict_keys inv ++ [author].
Proof.
  unfold note_invalid_author.
  assert (∀ inv0 : dict (gset string), author ∈ dict_keys inv0 →
    dict_keys
      (foldl (λ inv issue,
                dict_set author (default ∅ (dict_get author inv) ∪ {[issue]}) inv)
             inv0 issues)
    = dict_keys inv0) as Hloop.
  { induction issues as [|i issues IH]; intros inv0 Hin; [done|].
    cbn [foldl]. rewrite IH; rewrite dict_keys_set, decide_True; done. }
  destruct (dict_get author inv) eqn:Hget.
  - assert (author ∈ dict_keys inv) as Hin.
    { destruct (decide (author ∈ dict_keys inv)) as [|Hnot]; [done|].
      apply dict_get_None_keys in Hnot. congruence. }
    by rewrite Hloop, decide_True.
  - apply dict_get_None_keys in Hget.
    rewrite Hloop; rewrite dict_keys_set, decide_False by done; [done|].
    apply elem_of_app. right. by left.
Qed.

Lemma invalid_authors_keys_run commits st :
  NoDup (dict_keys (invalid_authors st)) →
  NoDup (dict_keys (invalid_authors (foldl process_commit st commits)))
  ∧ ∀ author,
      author ∈ dict_keys (invalid_authors (foldl process_commit st commits))
      ↔ author ∈ dict_keys (invalid_authors st)
        ∨ author ∈ invalid_raw_authors commits.
Proof.
  revert st. induction commits as [|c commits IH]; intros st Hnodup; cbn [foldl].
  - split; [done|]. intros author. unfold invalid_raw_authors. cbn. set_solver.
  - assert (NoDup (dict_keys (invalid_authors (process_commit st c)))
            ∧ ∀ author, author ∈ dict_keys (invalid_authors (process_commit st c))
                ↔ author ∈ dict_keys (invalid_authors st)
                  ∨ (is_valid_author (get_author c) = false ∧ author = get_author c))
      as [Hnodup' Hkeys].
    { rewrite invalid_authors_process_commit.
      destruct (is_valid_author (get_author c)); [split; [done|naive_solver]|].
      rewrite note_invalid_author_keys. case_decide as Hin.
      - split; [done|]. naive_solver.
      - split.
        + apply NoDup_app. split; [done|]. split; [|apply NoDup_singleton].
          intros a Ha ->%list_elem_of_singleton. done.
        + intros author. rewrite elem_of_app, list_elem_of_singleton. naive_solver. }
    destruct (IH _ Hnodup') as [Hfinal Hiff]. split; [done|].
    intros author. rewrite Hiff, Hkeys. unfold invalid_raw_authors.
    rewrite filter_cons. destruct (is_valid_author (get_author c)) eqn:Hvalid.
    + rewrite decide_False by done. naive_solver.
    + rewrite decide_True by done. rewrite fmap_cons, elem_of_cons. naive_solver.
Qed.

(** X9. After a run the record of invalid authors holds exactly the raw
    authors of the processed commits that fail the validity check, each
    once.  If every author is valid the final warnings are the translation
    warnings alone; otherwise every invalid raw author is listed in the
    final warnings, behind a tab. *)
Theorem invalid_authors_account (commits : list Commit) :
  NoDup (dict_keys (invalid_authors (compile_contributors commits)))
  ∧ (∀ author,
       author ∈ dict_keys (invalid_authors (compile_contributors commits))
       ↔ ∃ c, c ∈ commits ∧ get_author c = author
              ∧ is_valid_author author = false)
  ∧ ((∀ c, c ∈ commits → is_valid_author (get_author c) = true) →
     final_warnings (compile_contributors commits)
     = warnings (compile_contributors commits))
  ∧ (∀ c, c ∈ commits → is_valid_author (get_author c) = false →
       String "009" (get_author c) ∈ final_warnings (compile_contributors commits)).
Proof.
  destruct (invalid_authors_keys_run commits initial_state) as [Hnodup Hiff];
    [apply NoDup_nil_2|].
  fold (compile_contributors commits) in Hnodup, Hiff.
  assert (∀ author,
       author ∈ dict_keys (invalid_authors (compile_contributors commits))
       ↔ ∃ c, c ∈ commits ∧ get_author c = author
              ∧ is_valid_author author = false) as Hkeys.
  { intros author. rewrite Hiff. unfold invalid_raw_authors.
    rewrite list_elem_of_fmap. setoid_rewrite list_elem_of_filter.
    cbn. split.
    - intros [?%elem_of_nil|(c & -> & Hinv & Hc)]; [done|]. by exists c.
    - intros (c & Hc & <- & Hinv). right. by exists c. }
  split; [done|]. split; [done|]. split.
  - intros Hvalid. unfold final_warnings.
    destruct (invalid_authors (compile_contributors commits)) as [|[a s] inv] eqn:Hinv;
      [done|].
    assert (a ∈ dict_keys ((a, s) :: inv)) as Ha by (by left).
    apply Hkeys in Ha as (c & Hc & <- & Hbad). rewrite (Hvalid c Hc) in Hbad. done.
  - intros c Hc Hbad.
    assert (get_author c ∈ dict_keys (invalid_authors (compile_contributors commits)))
      as Ha by (apply Hkeys; by exists c).
    unfold final_warnings.
    destruct (invalid_authors (compile_contributors commits)) as [|[a s] inv] eqn:Hinv;
      [by apply elem_of_nil in Ha|].
    apply elem_of_app. right. apply elem_of_app. right. apply elem_of_app. left.
    by apply list_elem_of_fmap_2.
Qed.

End InvalidRecord.

Lemma invalid_authors_account_witness :
  final_warnings (compile_contributors (RU:=Demo.utils Demo.ascending_order)
                    [Demo.fix_x; Demo.mixed_issues])
  = []
  ∧ String "009" "bob"
    ∈ final_warnings (compile_contributors (RU:=Demo.utils Demo.ascending_order)
                        [Demo.fix_x; Demo.guide]).
Proof.
  split.
  - destruct (invalid_authors_account (RU:=Demo.utils Demo.ascending_order)
                [Demo.fix_x; Demo.mixed_issues]) as (_ & _ & Hvalid & _).
    rewrite Hvalid; [reflexivity|].
    intros c [->|[->|?%elem_of_nil]%elem_of_cons]%elem_of_cons; done.
  - destruct (invalid_authors_account (RU:=Demo.utils Demo.ascending_order)
                [Demo.fix_x; Demo.guide]) as (_ & _ & _ & Hlisted).
    apply (Hlisted Demo.guide); [compute_done|reflexivity].
Defined.

(** ** What [populate] touches *)

Section PopulateFrame.
Context `{RU : ReleaseUtils}.

Lemma components_of_populate_other author issue_type comps info author' issue_type' :
  ¬ (author' = author ∧ issue_type' = issue_type) →
  components_of author' issue_type' (populate author issue_type comps info)
  = components_of author' issue_type' info.
Proof.
  intros Hother. rewrite populate_eq. unfold components_of.
  destruct (decide (author = author')) as [<-|Hne].
  - rewrite dict_get_set_eq. simpl.
    rewrite dict_get_set_ne; [done|]. intros <-. by apply Hother.
  - by rewrite dict_get_set_ne.
Qed.

Lemma populate_grows author issue_type comps info author' issue_type' :
  components_of author' issue_type' info
  ⊆ components_of author' issue_type' (populate author issue_type comps info).
Proof.
  destruct (decide (author' = author ∧ issue_type' = issue_type)) as [[-> ->]|Hother].
  - rewrite components_of_populate. set_solver.
  - by rewrite components_of_populate_other.
Qed.

Lemma process_commit_grows st c author issue_type :
  components_of author issue_type (author_info st)
  ⊆ components_of author issue_type (author_info (process_commit st c)).
Proof.
  rewrite author_info_process_commit. cbn zeta.
  assert (components_of author issue_type (author_info st)
          ⊆ components_of author issue_type
              (foldl (issue_contribution (get_hash c) (identity_of st c)
                        (find_components (get_title c) (get_hash c)))
                     (author_info st) (commit_issues c))) as Hloop.
  { generalize (commit_issues c). intros issues. generalize (author_info st).
    induction issues as [|i issues IH]; intros info; [done|].
    cbn [foldl]. etrans; [|apply IH].
    unfold issue_contribution. destruct (jira_issue i); [done|].
    apply populate_grows. }
  destruct (is_docs _ && _); [|done].
  etrans; [exact Hloop|apply populate_grows].
Qed.

(** X10. [populate] changes one entry only: the set filed under its author
    and issue type becomes the union of the former set and the merged
    components, every other set is as before.  Nothing is ever removed:
    what is filed under an author and an issue type at some point of a run
    is still filed there at the end, the core component included once it
    was substituted. *)
Theorem populate_frame (author issue_type : string) (comps : gset string)
    (info : dict (dict (gset string))) (author' issue_type' : string)
    (st : State) (commits : list Commit) :
  components_of author' issue_type' (populate author issue_type comps info)
  = (if decide (author' = author ∧ issue_type' = issue_type)
     then components_of author issue_type info ∪ effective_components comps
     else components_of author' issue_type' info)
  ∧ components_of author' issue_type' (author_info st)
    ⊆ components_of author' issue_type'
        (author_info (foldl process_commit st commits)).
Proof.
  split.
  - case_decide as Hsame.
    + destruct Hsame as [-> ->]. apply components_of_populate.
    + by apply components_of_populate_other.
  - revert st. induction commits as [|c commits IH]; intros st; [done|].
    cbn [foldl]. etrans; [apply (process_commit_grows st c)|apply IH].
Qed.

(** ** Keys are kept once and in insertion order *)

Lemma dict_set_NoDup {V} (k : string) (v : V) (d : dict V) :
  NoDup (dict_keys d) → NoDup (dict_keys (dict_set k v d)).
Proof.
  intros Hnodup. rewrite dict_keys_set. case_decide as Hin; [done|].
  apply NoDup_app. split; [done|]. split; [|apply NoDup_singleton].
  by intros a Ha ->%list_elem_of_singleton.
Qed.

Lemma populate_keys author issue_type comps info :
  dict_keys (populate author issue_type comps info)
  = if decide (author ∈ dict_keys info) then dict_keys info
    else dict_keys info ++ [author].
Proof. by rewrite populate_eq, dict_keys_set. Qed.

Lemma populate_record_keys author issue_type comps info :
  dict_keys (default [] (dict_get author (populate author issue_type comps info)))
  = if decide (issue_type ∈ dict_keys (default [] (dict_get author info)))
    then dict_keys (default [] (dict_get author info))
    else dict_keys (default [] (dict_get author info)) ++ [issue_type].
Proof. rewrite populate_eq, dict_get_set_eq. simpl. by rewrite dict_keys_set. Qed.

Lemma populate_NoDup author issue_type comps info :
  NoDup (dict_keys info) →
  (∀ a record, (a, record) ∈ info → NoDup (dict_keys record)) →
  NoDup (dict_keys (populate author issue_type comps info))
  ∧ ∀ a record, (a, record) ∈ populate author issue_type comps info →
      NoDup (dict_keys record).
Proof.
  intros Hauthors Hrecords. rewrite populate_eq.
  split; [by apply dict_set_NoDup|].
  intros a record [[= -> ->]|Hin]%elem_of_dict_set; [|by eapply Hrecords].
  apply dict_set_NoDup.
  destruct (dict_get author info) as [old|] eqn:Hget; simpl; [|apply NoDup_nil_2].
  eapply Hrecords. by apply dict_get_Some_elem_of.
Qed.

Lemma issue_loop_NoDup _hash author cc issues info :
  NoDup (dict_keys info) →
  (∀ a record, (a, record) ∈ info → NoDup (dict_keys record)) →
  NoDup (dict_keys (foldl (issue_contribution _hash author cc) info issues))
  ∧ ∀ a record,
      (a, record) ∈ foldl (issue_contribution _hash author cc) info issues →
      NoDup (dict_keys record).
Proof.
  revert info. induction issues as [|i issues IH]; intros info Ha Hr; [done|].
  cbn [foldl]. unfold issue_contribution at 2 4.
  destruct (jira_issue i); [by apply IH|].
  apply IH; by apply populate_NoDup.
Qed.

Lemma run_NoDup_keys commits st :
  NoDup (dict_keys (author_info st)) →
  (∀ a record, (a, record) ∈ author_info st → NoDup (dict_keys record)) →
  NoDup (dict_keys (author_info (foldl process_commit st commits)))
  ∧ ∀ a record, (a, record) ∈ author_info (foldl process_commit st commits) →
      NoDup (dict_keys record).
Proof.
  revert st. induction commits as [|c commits IH]; intros st Ha Hr; [done|].
  cbn [foldl].
  destruct (issue_loop_NoDup (get_hash c) (identity_of st c)
              (find_components (get_title c) (get_hash c)) (commit_issues c)
              (author_info st) Ha Hr) as [Ha' Hr'].
  apply IH; rewrite author_info_process_commit; cbn zeta;
    (destruct (is_docs _ && _); [by apply populate_NoDup|done]).
Qed.

Lemma compile_NoDup_keys commits :
  NoDup (dict_keys (author_info (compile_contributors commits)))
  ∧ ∀ a record, (a, record) ∈ author_info (compile_contributors commits) →
      NoDup (dict_keys record).
Proof.
  apply run_NoDup_keys; [apply NoDup_nil_2|].
  intros a record Hin. by apply elem_of_nil in Hin.
Qed.

(** X11. A new author goes to the end of [author_info] and a new issue
    type to the end of the author's record, known ones keep their place.
    Hence after a run no author occurs twice in [author_info] and no
    issue type twice in a record. *)
Theorem keys_in_insertion_order (author issue_type : string) (comps : gset string)
    (info : dict (dict (gset string))) (commits : list Commit) :
  dict_keys (populate author issue_type comps info)
  = (if decide (author ∈ dict_keys info) then dict_keys info
     else dict_keys info ++ [author])
  ∧ dict_keys (default [] (dict_get author (populate author issue_type comps info)))
    = (if decide (issue_type ∈ dict_keys (default [] (dict_get author info)))
       then dict_keys (default [] (dict_get author info))
       else dict_keys (default [] (dict_get author info)) ++ [issue_type])
  ∧ NoDup (dict_keys (author_info (compile_contributors commits)))
  ∧ (∀ a record, (a, record) ∈ author_info (compile_contributors commits) →
       NoDup (dict_keys record)).
Proof.
  split; [apply populate_keys|]. split; [apply populate_record_keys|].
  apply compile_NoDup_keys.
Qed.

End PopulateFrame.

(** ** The lines of the report *)

Section ReportLines.
Context `{RU : ReleaseUtils}.

Lemma report_line_shape info author line :
  report_line info author = Some line →
  ∃ clause, line = author +:+ " -- " +:+ clause ∧ clause ≠ "".
Proof.
  unfold report_line. destruct (dict_get author info) as [record|]; [|done]. cbn.
  destruct (contribution_of record) as [s|]; [|done]. cbn.
  destruct s as [|x rest]; [done|]. cbn. intros [= <-]. by eexists.
Qed.

(** X12. After a run the report is written without error and has one line
    for each author of [author_info]: the authors are taken once each, in
    ascending string order, and the line of an author is the author,
    " -- " and a non-empty clause. *)
Theorem report_one_line_per_author (commits : list Commit) :
  ∃ lines,
    write_contributors (author_info (compile_contributors commits)) = Some lines
    ∧ length lines = length (author_info (compile_contributors commits))
    ∧ Forall2 (λ author line,
                 ∃ clause, line = author +:+ " -- " +:+ clause ∧ clause ≠ "")
              (sorted_authors (author_info (compile_contributors commits))) lines
    ∧ Sorted String.le (sorted_authors (author_info (compile_contributors commits)))
    ∧ NoDup (sorted_authors (author_info (compile_contributors commits)))
    ∧ sorted_authors (author_info (compile_contributors commits))
      ≡ₚ dict_keys (author_info (compile_contributors commits)).
Proof.
  destruct (write_contributors_is_Some (author_info (compile_contributors commits)))
    as [lines Hlines]; [apply run_well_formed, well_formed_info_nil|].
  exists lines. split; [done|].
  assert (sorted_authors (author_info (compile_contributors commits))
          ≡ₚ dict_keys (author_info (compile_contributors commits))) as Hperm
    by apply merge_sort_Permutation.
  unfold write_contributors in Hlines. split; [|split; [|split; [|split]]].
  - apply length_mapM in Hlines. rewrite <- Hlines, Hperm.
    unfold dict_keys. by rewrite length_fmap.
  - apply mapM_Some in Hlines. eapply Forall2_impl; [exact Hlines|].
    intros author line. apply report_line_shape.
  - apply Sorted_merge_sort. apply _.
  - rewrite Hperm.
    by destruct (compile_NoDup_keys commits) as [Hnodup _].
  - done.
Qed.

End ReportLines.

(** ** Commits whose queries all fail *)

Section AllQueriesFail.
Context `{RU : ReleaseUtils}.

(** X13. A commit that holds at least one issue reference and whose
    queries all fail leaves [author_info] as it was, also when its title
    matches the documentation heuristic: the documentation entry is only
    made for titles without issue reference.  It is still recorded as
    queried and as processed. *)
Theorem unanswered_commit_changes_nothing (st : State) (c : Commit) :
  commit_issues c ≠ [] →
  (∀ issue, issue ∈ commit_issues c → ∃ e, jira_issue issue = inl e) →
  author_info (process_commit st c) = author_info st
  ∧ warnings (process_commit st c) = warnings st
  ∧ tracker_calls (process_commit st c) = tracker_calls st ++ commit_issues c
  ∧ last (stdout (process_commit st c)) = Some (processed_line st c).
Proof.
  intros Hsome Hfail. split; [|split; [|split]].
  - rewrite author_info_process_commit. cbn zeta.
    rewrite bool_decide_eq_false_2, andb_false_r by done.
    revert Hfail. generalize (commit_issues c). intros issues Hfail.
    induction issues as [|i issues IH]; [done|]. cbn [foldl].
    unfold issue_contribution at 2.
    destruct (Hfail i) as [e ->]; [by left|].
    apply IH. intros issue Hin. apply Hfail. by right.
  - rewrite warnings_process_commit.
    assert (concat (issue_warnings (get_hash c) <$> commit_issues c) = []) as ->;
      [|by rewrite app_nil_r].
    revert Hfail. generalize (commit_issues c). intros issues Hfail.
    induction issues as [|i issues IH]; [done|]. cbn.
    unfold issue_warnings at 1. destruct (Hfail i) as [e ->]; [by left|].
    apply IH. intros issue Hin. apply Hfail. by right.
  - apply tracker_calls_process_commit.
  - by rewrite stdout_process_commit, !app_assoc, last_snoc.
Qed.

End AllQueriesFail.

Lemma unanswered_commit_changes_nothing_witness :
  author_info (process_commit (RU:=Demo.utils Demo.ascending_order)
                 initial_state Demo.lost_issue) = [].
Proof.
  destruct (unanswered_commit_changes_nothing (RU:=Demo.utils Demo.ascending_order)
              initial_state Demo.lost_issue) as (Hinfo & _).
  - discriminate.
  - intros issue ->%list_elem_of_singleton. by eexists.
  - exact Hinfo.
Defined.

(** ** Tag prompts *)

Lemma resolve_tag_unfold tag_exists tag inputs :
  resolve_tag tag_exists tag inputs
  = if tag_exists tag then Some (tag, inputs)
    else match inputs with
         | [] => None
         | answer :: rest => resolve_tag tag_exists answer rest
         end.
Proof. by destruct inputs. Qed.

Lemma resolve_tag_Some tag_exists tag inputs found rest :
  resolve_tag tag_exists tag inputs = Some (found, rest) ↔
  tag_exists found = true
  ∧ ∃ refused, tag :: inputs = refused ++ found :: rest
               ∧ Forall (λ t, tag_exists t = false) refused.
Proof.
  split.
  - revert tag. induction inputs as [|answer inputs IH]; intros tag;
      rewrite resolve_tag_unfold; destruct (tag_exists tag) eqn:Htag.
    + intros [= <- <-]. split; [done|]. by exists [].
    + done.
    + intros [= <- <-]. split; [done|]. by exists [].
    + intros (Hfound & refused & Heq & Hrefused)%IH. split; [done|].
      exists (tag :: refused). split; [by rewrite Heq|]. by apply Forall_cons.
  - intros (Hfound & refused & Heq & Hrefused).
    revert tag inputs Heq.
    induction refused as [|t refused IH]; intros tag inputs Heq;
      rewrite resolve_tag_unfold.
    + injection Heq as -> ->. by rewrite Hfound.
    + injection Heq as -> ->.
      apply Forall_cons in Hrefused as [-> Hrefused].
      destruct refused as [|t' refused]; cbn [app]; by apply IH.
Qed.

Lemma resolve_tag_None tag_exists tag inputs :
  resolve_tag tag_exists tag inputs = None ↔
  Forall (λ t, tag_exists t = false) (tag :: inputs).
Proof.
  revert tag. induction inputs as [|answer inputs IH]; intros tag; cbn.
  - destruct (tag_exists tag) eqn:Htag.
    + split; [done|]. intros [? _]%Forall_cons. congruence.
    + split; [|done]. intros _. by apply Forall_cons.
  - destruct (tag_exists tag) eqn:Htag.
    + split; [done|]. intros [? _]%Forall_cons. congruence.
    + rewrite IH. split; [intros ?; by apply Forall_cons|by intros [_ ?]%Forall_cons].
Qed.

(** X14. The prompt loop ends with the first tag that exists among the
    configured tag and the answers, in that order, and leaves the answers
    behind it unread; a configured tag that exists is kept without asking;
    the loop runs out of input exactly when no tag of the whole sequence
    exists.  The loop for the release tag reads its answers before the
    loop for the previous tag. *)
Theorem resolve_tag_first_existing (tag_exists : string → bool) (tag previous : string)
    (inputs : list string) (found : string) (rest : list string) :
  (resolve_tag tag_exists tag inputs = Some (found, rest) ↔
     tag_exists found = true
     ∧ ∃ refused, tag :: inputs = refused ++ found :: rest
                  ∧ Forall (λ t, tag_exists t = false) refused)
  ∧ (tag_exists tag = true → resolve_tag tag_exists tag inputs = Some (tag, inputs))
  ∧ (resolve_tag tag_exists tag inputs = None ↔
       Forall (λ t, tag_exists t = false) (tag :: inputs))
  ∧ (resolve_tag tag_exists tag inputs = Some (found, rest) →
     resolve_tags tag_exists tag previous inputs
     = (λ '(p, unread), (found, p, unread)) <$> resolve_tag tag_exists previous rest).
Proof.
  split; [apply resolve_tag_Some|]. split; [|split; [apply resolve_tag_None|]].
  - intros Htag. by rewrite resolve_tag_unfold, Htag.
  - intros Hfound. unfold resolve_tags. rewrite Hfound. cbn.
    by destruct (resolve_tag tag_exists previous rest) as [[p unread]|].
Qed.

Lemma resolve_tag_first_existing_witness :
  resolve_tags (λ t, bool_decide (t ∈ ["v1.1.0"; "v1.2.0-rc2"]))
    "v1.2.0" "v1.1.0" ["v1.2"; "v1.2.0-rc2"; "unread"]
  = Some ("v1.2.0-rc2", "v1.1.0", ["unread"]).
Proof.
  destruct (resolve_tag_first_existing
              (λ t, bool_decide (t ∈ ["v1.1.0"; "v1.2.0-rc2"]))
              "v1.2.0" "v1.1.0" ["v1.2"; "v1.2.0-rc2"; "unread"]
              "v1.2.0-rc2" ["unread"]) as (_ & _ & _ & Hboth).
  rewrite Hboth; reflexivity.
Defined.

(** ** Outcome of the script *)

Section Outcome.
Context `{RU : ReleaseUtils}.

(** X15. The script stops with a message when there is no new commit or
    when one of the two confirmations is refused, and otherwise writes the
    report of the processing queue together with the final warnings; no
    other outcome exists.  The answers to the two "show" prompts do not
    change the outcome. *)
Theorem main_outcome (release_tag previous_tag : string) (answers : Answers) :
  (new_commits (get_commits previous_tag) (get_commits release_tag) = [] →
   main release_tag previous_tag answers
   = Exit ("There are no new commits between " +:+ previous_tag
           +:+ " and " +:+ release_tag +:+ "!"))
  ∧ (new_commits (get_commits previous_tag) (get_commits release_tag) ≠ [] →
     looks_correct answers = false →
     main release_tag previous_tag answers = Exit "Ok, exiting")
  ∧ (new_commits (get_commits previous_tag) (get_commits release_tag) ≠ [] →
     looks_correct answers = true → ok_to_proceed answers = false →
     main release_tag previous_tag answers = Exit "Ok, exiting.")
  ∧ (new_commits (get_commits previous_tag) (get_commits release_tag) ≠ [] →
     looks_correct answers = true → ok_to_proceed answers = true →
     ∃ lines,
       write_contributors
         (author_info
            (compile_contributors
               (filtered_commits
                  (classify_commits
                     (new_commits (get_commits previous_tag)
                                  (get_commits release_tag))))))
       = Some lines
       ∧ main release_tag previous_tag answers
         = Written lines
             (final_warnings
                (compile_contributors
                   (filtered_commits
                      (classify_commits
                         (new_commits (get_commits previous_tag)
                                      (get_commits release_tag)))))))
  ∧ (∀ show_all show_ignored,
       main release_tag previous_tag
            (mkAnswers show_all (looks_correct answers) show_ignored
                       (ok_to_proceed answers))
       = main release_tag previous_tag answers).
Proof.
  unfold main.
  destruct (new_commits (get_commits previous_tag) (get_commits release_tag))
    as [|c new] eqn:Hnew.
  - repeat split; try done.
  - split; [done|]. split; [by intros _ ->|]. split; [by intros _ -> ->|].
    split; [|done]. intros _ -> ->. cbn [negb].
    destruct (write_contributors_is_Some
                (author_info (compile_contributors
                   (filtered_commits (classify_commits (c :: new))))))
      as [lines Hlines]; [apply run_well_formed, well_formed_info_nil|].
    exists lines. split; [done|]. unfold compile_contributors in Hlines.
    by rewrite Hlines.
Qed.

End Outcome.

Lemma main_outcome_witness :
  main (RU:=Demo.utils Demo.ascending_order) "v1.2.0-rc0" "v1.1.0"
       (mkAnswers false true false false)
  = Exit "Ok, exiting.".
Proof.
  destruct (main_outcome (RU:=Demo.utils Demo.ascending_order) "v1.2.0-rc0" "v1.1.0"
              (mkAnswers false true false false)) as (_ & _ & Hrefused & _).
  apply Hrefused; [discriminate|reflexivity|reflexivity].
Defined.

(** ** An invalid author under several identities *)



Section SeveralIdentities.
Context `{RU : ReleaseUtils}.





End SeveralIdentities.


(** ** Where the reported components come from *)

Section ComponentSources.
Context `{RU : ReleaseUtils}.

Lemma translate_components_fst _hash names :
  (translate_components _hash names).1
  = (λ name, (translate_component name _hash).1) <$> names.
Proof.
  unfold translate_components.
  assert (∀ acc ws,
    (foldl (λ '(acc, ws) name,
              let '(c, w) := translate_component name _hash in
              (acc ++ [c], ws ++ w)) (acc, ws) names).1
    = acc ++ ((λ name, (translate_component name _hash).1) <$> names)) as Hgen.
  { induction names as [|name names IH]; intros acc ws; cbn [foldl].
    - cbn. by rewrite app_nil_r.
    - destruct (translate_component name _hash) as [c w] eqn:Hc.
      rewrite IH, <- app_assoc. cbn. by rewrite Hc. }
  by rewrite Hgen.
Qed.

Lemma component_source_mono commits c x :
  component_source commits x → component_source (commits ++ [c]) x.
Proof.
  intros [->|(c' & Hc' & Hsrc)]; [by left|]. right. exists c'.
  split; [|done]. apply elem_of_app. by left.
Qed.

Lemma populate_sources commits author issue_type comps info :
  (∀ a t x, x ∈ components_of a t info → component_source commits x) →
  (∀ x, x ∈ comps → component_source commits x) →
  ∀ a t x, x ∈ components_of a t (populate author issue_type comps info) →
           component_source commits x.
Proof.
  intros Hinfo Hcomps a t x.
  destruct (decide (a = author ∧ t = issue_type)) as [[-> ->]|Hother].
  - rewrite components_of_populate. intros [Hold|Hnew]%elem_of_union.
    + by eapply Hinfo.
    + unfold effective_components in Hnew. case_decide.
      * apply elem_of_singleton in Hnew as ->. by left.
      * by apply Hcomps.
  - rewrite components_of_populate_other by done. apply Hinfo.
Qed.

Lemma process_commit_sources commits st c :
  (∀ a t x, x ∈ components_of a t (author_info st) → component_source commits x) →
  ∀ a t x, x ∈ components_of a t (author_info (process_commit st c)) →
           component_source (commits ++ [c]) x.
Proof.
  intros Hst. rewrite author_info_process_commit. cbn zeta.
  assert (∀ x, x ∈ find_components (get_title c) (get_hash c) →
               component_source (commits ++ [c]) x) as Hinferred.
  { intros x Hx. right. exists c. split; [|by left].
    apply elem_of_app. right. by left. }
  assert (∀ issues, issues ⊆ commit_issues c →
    ∀ info, (∀ a t x, x ∈ components_of a t info → component_source (commits ++ [c]) x) →
    ∀ a t x,
      x ∈ components_of a t
            (foldl (issue_contribution (get_hash c) (identity_of st c)
                      (find_components (get_title c) (get_hash c))) info issues) →
      component_source (commits ++ [c]) x) as Hloop.
  { induction issues as [|i issues IH]; intros Hsub info Hinfo; [done|].
    cbn [foldl]. apply IH; [set_solver|].
    unfold issue_contribution. destruct (jira_issue i) as [e|found] eqn:Hi; [done|].
    apply populate_sources; [done|].
    intros x [Hx|Hx]%elem_of_list_to_set%elem_of_app; [|by apply Hinferred].
    rewrite translate_components_fst in Hx.
    apply list_elem_of_fmap in Hx as (name & -> & Hname).
    right. exists c. split; [apply elem_of_app; right; by left|].
    right. exists i, found, name. split; [set_solver|done]. }
  assert (∀ a t x,
      x ∈ components_of a t
            (foldl (issue_contribution (get_hash c) (identity_of st c)
                      (find_components (get_title c) (get_hash c)))
                   (author_info st) (commit_issues c)) →
      component_source (commits ++ [c]) x) as Hissues.
  { apply Hloop; [done|]. intros a t x Hx. by eapply component_source_mono, Hst. }
  destruct (is_docs _ && _); [|done].
  apply populate_sources; [done|].
  intros x Hx%elem_of_list_to_set. by apply Hinferred.
Qed.

(** X17. The aggregation invents no component: every component filed in
    [author_info] after a run is the core default, a component inferred
    for one of the processed commits, or the translation of a component
    the tracker returned for an issue reference of one of them. *)
Theorem components_have_a_source (commits : list Commit)
    (author issue_type x : string) :
  x ∈ components_of author issue_type (author_info (compile_contributors commits)) →
  component_source commits x.
Proof.
  revert author issue_type x. unfold compile_contributors.
  induction commits as [|c commits IH] using rev_ind; intros author issue_type x.
  - cbn. unfold components_of. cbn. set_solver.
  - rewrite foldl_app. cbn [foldl]. by apply process_commit_sources.
Qed.

End ComponentSources.

Lemma components_have_a_source_witness :
  component_source (RU:=Demo.utils Demo.ascending_order) [Demo.fix_y] "SQL".
Proof.
  apply (components_have_a_source (RU:=Demo.utils Demo.ascending_order)
           [Demo.fix_y] "bob/SPARK-10/SPARK-11" "Improvement" "SQL").
  compute_done.
Defined.

(** ** Clauses of an author with several components *)

Lemma string_app_assoc (s1 s2 s3 : string) :
  (s1 +:+ s2) +:+ s3 = s1 +:+ s2 +:+ s3.
Proof.
  induction s1 as [|c s1 IH]; [done|].
  change (String c ((s1 +:+ s2) +:+ s3) = String c (s1 +:+ s2 +:+ s3)).
  by rewrite IH.
Qed.

Section SeveralComponents.
Context `{RU : ReleaseUtils}.

(** X18. For an author whose record does not hold exactly one distinct
    component the clause has one part per issue type, in the order in
    which the issue types entered the record, joined by "; "; with two
    issue types of one component each, the components being different,
    the line is the author, " -- " and "<type1> in <component1>; <type2>
    in <component2>" with its first character capitalised, whatever the
    iteration order of sets. *)
Theorem several_components_clause (info : dict (dict (gset string)))
    (author : string) (record : dict (gset string))
    (type1 type2 component1 component2 : string) :
  (size (⋃ (record.*2) : gset string) ≠ 1 →
   contribution_of record
   = Some (Py.join "; "
             ((λ '(issue_type, comps),
                 issue_type +:+ " in " +:+ nice_join (set_iter comps)) <$> record)))
  ∧ (component1 ≠ component2 →
     dict_get author info
     = Some [(type1, {[component1]}); (type2, {[component2]})] →
     report_line info author
     = (λ clause, author +:+ " -- " +:+ clause)
         <$> capitalize_first
               (type1 +:+ " in " +:+ component1 +:+ "; "
                +:+ type2 +:+ " in " +:+ component2)).
Proof.
  split.
  - intros Hsize. unfold contribution_of. by rewrite decide_False.
  - intros Hne Hget. unfold report_line. rewrite Hget. cbn [mbind option_bind].
    unfold contribution_of. rewrite decide_False.
    + cbn [fmap list_fmap]. rewrite !set_iter_singleton. cbn [nice_join Py.join].
      cbn. rewrite !string_app_assoc. by destruct (capitalize_first _).
    + cbn. rewrite union_empty_r_L, size_union by set_solver.
      rewrite !size_singleton. lia.
Qed.

End SeveralComponents.

Lemma several_components_clause_witness :
  report_line (RU:=Demo.utils Demo.descending_order)
    [("A <a@x.com>", [("bug", {["SQL"]}); ("Improvement", {["Core"]})])]
    "A <a@x.com>"
  = Some "A <a@x.com> -- Bug in SQL; Improvement in Core".
Proof.
  destruct (several_components_clause (RU:=Demo.utils Demo.descending_order)
              [("A <a@x.com>", [("bug", {["SQL"]}); ("Improvement", {["Core"]})])]
              "A <a@x.com>" [] "bug" "Improvement" "SQL" "Core") as [_ Htwo].
  rewrite Htwo; [reflexivity|discriminate|reflexivity].
Defined.
